(** * Fuzzy pooling on MNIST: the pooling layers and the training step

    A shallow embedding of [Codes/Fuzzy_Pooling_Updated_MNIST_Dataset.ipynb]:
    the plain [FuzzyPoolingLayer], the second [FuzzyPoolingLayer] (with RegP),
    [FuzzyCNNWithRegP], the per-batch body of [train], [MaxPoolingLayer] and
    [test].

    Arithmetic is exact: the elements of an input tensor are real numbers,
    [torch.exp] is the real exponential and [torch.std] the real square root
    of the unbiased variance; rounding is not modelled.  The one non-number
    the layer can create from such inputs, the 0/0 of [torch.std] on a single
    element and of [mean()] on an empty tensor, is kept as [NaN].  The tensor
    operations over the spatial axes act on each (batch, channel) slice on its
    own, so they are written as maps over the slices.  [pool_size] is a
    natural number.  Python exceptions are results of type [exn]. *)

From Stdlib Require Import Reals Lra Lia.
From stdpp Require Import base option list.

(** ** Numbers *)

(** The literal [1e-8]. *)
Definition eps : R := (1 / 100000000)%R.

(** A tensor element computed by the layer: a real number or NaN. *)
Inductive val : Type :=
  | Num (r : R)
  | NaN.

(** NaN is absorbing for every arithmetic operation of the layer. *)
Definition vadd (a b : val) : val :=
  match a, b with
  | Num x, Num y => Num (x + y)
  | _, _ => NaN
  end.

Definition vscale (k : R) (a : val) : val :=
  match a with
  | Num x => Num (k * x)
  | NaN => NaN
  end.

(** Division of a value by an element count.  A zero count is only ever
    reached with the numerator 0 (an empty sum) or NaN, and 0/0 is NaN. *)
Definition vdiv_count (a : val) (n : nat) : val :=
  match a with
  | Num x => if (n =? 0)%nat then NaN else Num (x / INR n)
  | NaN => NaN
  end.

Definition vsum (l : list val) : val := foldr vadd (Num 0) l.

(** ** Python exceptions *)

Inductive exn : Type :=
  | ZeroDivisionError
  | IndexError.

Inductive result (A : Type) : Type :=
  | Ok (a : A)
  | Raise (e : exn).
Arguments Ok {A} a.
Arguments Raise {A} e.

Definition rbind {A B} (m : result A) (k : A -> result B) : result B :=
  match m with
  | Ok a => k a
  | Raise e => Raise e
  end.

Definition rmap {A B} (f : A -> B) (m : result A) : result B :=
  rbind m (fun a => Ok (f a)).

(** [for i in l: s = body i s], stopping at the first exception. *)
Fixpoint for_each {I S : Type} (l : list I) (s : S)
    (body : I -> S -> result S) : result S :=
  match l with
  | [] => Ok s
  | i :: l' => rbind (body i s) (fun s' => for_each l' s' body)
  end.

(** [range(0, stop, step)] for a positive step: 0, step, 2*step, ... below
    [stop]. *)
Definition py_range (stop step : nat) : list nat :=
  (fun k => k * step)%nat <$> seq 0 ((stop + step - 1) / step).

(** ** Tensors *)

(** An elementwise operation on a matrix, or on the two leading axes of a
    tensor. *)
Definition emap {A B} (f : A -> B) (m : list (list A)) : list (list B) :=
  fmap (M := list) (fmap (M := list) f) m.

(** A 4-dimensional tensor: its size (batch, channel, height, width) and its
    elements, indexed [b], [c], row, column. *)
Record tensor (A : Type) : Type := Tensor {
  tsize : nat * nat * nat * nat;
  tdata : list (list (list (list A)))
}.
Arguments Tensor {A} tsize tdata.
Arguments tsize {A} t.
Arguments tdata {A} t.

Definition plane_wf {A} (h w : nat) (pl : list (list A)) : Prop :=
  length pl = h /\ Forall (fun row => length row = w) pl.

(** The elements agree with the declared size. *)
Definition tensor_wf {A} (t : tensor A) : Prop :=
  let '(b, c, h, w) := tsize t in
  length (tdata t) = b /\
  Forall (fun img => length img = c /\ Forall (plane_wf h w) img) (tdata t).

(** The element at [b, c, i, j], if the index is in range. *)
Definition cell {A} (t : tensor A) (b c i j : nat) : option A :=
  pl ← (img ← tdata t !! b; img !! c); row ← pl !! i; row !! j.

(** [torch.full((b, c, h, w), v)]. *)
Definition full {A} (b c h w : nat) (v : A) : tensor A :=
  Tensor (b, c, h, w) (replicate b (replicate c (replicate h (replicate w v)))).

(** [torch.zeros((b, c, h, w))]. *)
Definition zeros (b c h w : nat) : tensor val := full b c h w (Num 0).

(** [pl[i:i+p, j:j+p]]: slices are clipped at the end of the plane. *)
Definition slice2 {A} (i j p : nat) (pl : list (list A)) : list (list A) :=
  (fun row => take p (drop j row)) <$> take p (drop i pl).

(** [x[:, :, i:i+p, j:j+p]]. *)
Definition slice4 {A} (i j p : nat) (x : tensor A)
    : list (list (list (list A))) :=
  emap (slice2 i j p) (tdata x).

(** [out[:, :, oi, oj] = v] for a (batch, channel) matrix [v]: an index
    outside the last two dimensions raises IndexError. *)
Definition index_put (out : tensor val) (oi oj : nat) (v : list (list val))
    : result (tensor val) :=
  let '(_, _, oh, ow) := tsize out in
  if (oi <? oh)%nat && (oj <? ow)%nat then
    Ok (Tensor (tsize out)
          (zip_with (zip_with (fun pl e => alter (<[oj := e]>) oi pl))
             (tdata out) v))
  else Raise IndexError.

(** ** Reductions over the two spatial axes of a window *)

Section Reductions.
Local Open Scope R_scope.

Definition rsum (l : list R) : R := foldr Rplus 0 l.

(** [w.sum(dim=(2, 3))]. *)
Definition sum2 (w : list (list R)) : R := rsum (rsum <$> w).

Definition numel (w : list (list R)) : nat := length (concat w).

(** [w.mean(dim=(2, 3))] of a window with at least one element. *)
Definition mean2 (w : list (list R)) : R := sum2 w / INR (numel w).

(** The unbiased sample deviation, for a window of at least two elements. *)
Definition std_real (w : list (list R)) : R :=
  sqrt (sum2 (emap (fun x => (x - mean2 w) ^ 2) w) / INR (numel w - 1)).

(** [w.std(dim=(2, 3))]: Bessel's correction divides by [numel - 1], so a
    single element gives NaN. *)
Definition std2 (w : list (list R)) : val :=
  if (numel w <=? 1)%nat then NaN else Num (std_real w).

(** [torch.max(g, dim=3)[0]] on one row, [torch.min(m, dim=2)[0]] on the
    column of row maxima; both reduce a non-empty axis. *)
Definition max_dim (row : list R) : R :=
  match row with
  | [] => 0
  | x :: row' => foldl Rmax x row'
  end.

Definition min_dim (col : list R) : R :=
  match col with
  | [] => 0
  | x :: col' => foldl Rmin x col'
  end.

(** Elementwise product of two windows of the same shape. *)
Definition mul2 (a b : list (list R)) : list (list R) :=
  zip_with (zip_with Rmult) a b.

(** [(g >= t).float()]. *)
Definition ge_float (g t : R) : R := if Rle_dec t g then 1 else 0.
End Reductions.
Arguments rsum l : simpl never.
Arguments sum2 w : simpl never.

(** ** [class FuzzyPoolingLayer] (first definition, without RegP) *)

Module FuzzyPoolingLayer.
Section Layer.
Local Open Scope R_scope.
Variable pool_size : nat.

Definition gaussian_membership (x mean std : R) : R :=
  exp (- ((x - mean) ^ 2) / (2 * std ^ 2)).

(** The lines [mean = ...], [std = ... + 1e-8], [gmf = ...] on the window
    of one (batch, channel) slice; [None] is a window of NaN. *)
Definition membership (window : list (list R)) : option (list (list R)) :=
  let mean := mean2 window in
  match vadd (std2 window) (Num eps) with
  | Num std =>
      Some (emap (fun x => gaussian_membership x mean std) window)
  | NaN => None
  end.

(** The lines [threshold = ...] to [pooled_value = ...] on one slice. *)
Definition pool (window : list (list R)) (gmf : option (list (list R)))
    : val :=
  match gmf with
  | Some gmf =>
      let threshold := min_dim (max_dim <$> gmf) in
      let dominant_features :=
        mul2 window (emap (fun g => ge_float g threshold) gmf) in
      let weights := emap (fun g => g / (sum2 gmf + eps)) gmf in
      Num (sum2 (mul2 dominant_features weights))
  | None => NaN
  end.

(** The body of the two loops, for the window at rows [i..], columns
    [j..]. *)
Definition body (x : tensor R) (i j : nat) (pooled_output : tensor val)
    : result (tensor val) :=
  let window := slice4 i j pool_size x in
  let gmf := emap membership window in
  let pooled_value := zip_with (zip_with pool) window gmf in
  index_put pooled_output (i / pool_size) (j / pool_size) pooled_value.

Definition forward (x : tensor R) : result (tensor val) :=
  let '(batch_size, channels, height, width) := tsize x in
  if (pool_size =? 0)%nat then Raise ZeroDivisionError else
  let output_height := (height / pool_size)%nat in
  let output_width := (width / pool_size)%nat in
  let pooled_output :=
    zeros batch_size channels output_height output_width in
  for_each (py_range height pool_size) pooled_output
    (fun i pooled_output =>
       for_each (py_range width pool_size) pooled_output
         (fun j pooled_output => body x i j pooled_output)).
End Layer.
End FuzzyPoolingLayer.

(** ** [class FuzzyPoolingLayer] (second definition, with RegP) *)

Module FuzzyPoolingLayerRegP.
(** [regp_total]: the Python integer [0] until the first [+=] makes it a
    0-dimensional tensor. *)
Inductive total : Type :=
  | IntZero
  | Scalar (v : val).

Section Layer.
Local Open Scope R_scope.
Variable pool_size : nat.
Variable reg_lambda : R.

Definition gaussian_membership (x mean std : R) : R :=
  exp (- ((x - mean) ^ 2) / (2 * std ^ 2)).

Definition membership (window : list (list R)) : option (list (list R)) :=
  let mean := mean2 window in
  match vadd (std2 window) (Num eps) with
  | Num std =>
      Some (emap (fun x => gaussian_membership x mean std) window)
  | NaN => None
  end.

(** [torch.sum(gmf ** 2, dim=(2, 3))] on one slice. *)
Definition penalty_slice (gmf : option (list (list R))) : val :=
  match gmf with
  | Some gmf =>
      Num (sum2 (emap (fun g => g ^ 2) gmf))
  | None => NaN
  end.

(** [penalty.mean()] over the (batch, channel) matrix. *)
Definition mean_all (penalty : list (list val)) : val :=
  vdiv_count (vsum (concat penalty)) (length (concat penalty)).

Definition regularization_penalty
    (gmf : list (list (option (list (list R))))) : val :=
  let penalty := emap penalty_slice gmf in
  vscale reg_lambda (mean_all penalty).

(** [regp_total += v]. *)
Definition total_add (regp_total : total) (v : val) : total :=
  match regp_total with
  | IntZero => Scalar (vadd (Num 0) v)
  | Scalar t => Scalar (vadd t v)
  end.

(** [regp_total / (batch_size * channels)]: between two Python integers
    a zero divisor raises, a tensor is divided elementwise. *)
Definition total_div (regp_total : total) (n : nat) : result val :=
  match regp_total with
  | IntZero =>
      if (n =? 0)%nat then Raise ZeroDivisionError
      else Ok (Num (0 / INR n))
  | Scalar t => Ok (vdiv_count t n)
  end.

Definition pool (window : list (list R)) (gmf : option (list (list R)))
    : val :=
  match gmf with
  | Some gmf =>
      let threshold := min_dim (max_dim <$> gmf) in
      let dominant_features :=
        mul2 window (emap (fun g => ge_float g threshold) gmf) in
      let weights := emap (fun g => g / (sum2 gmf + eps)) gmf in
      Num (sum2 (mul2 dominant_features weights))
  | None => NaN
  end.

Definition body (x : tensor R) (i j : nat) (st : tensor val * total)
    : result (tensor val * total) :=
  let '(pooled_output, regp_total) := st in
  let window := slice4 i j pool_size x in
  let gmf := emap membership window in
  let regp_total := total_add regp_total (regularization_penalty gmf) in
  let pooled_value := zip_with (zip_with pool) window gmf in
  rbind
    (index_put pooled_output (i / pool_size) (j / pool_size) pooled_value)
    (fun pooled_output => Ok (pooled_output, regp_total)).

(** Returns [pooled_output] together with the attribute [self.regp_loss]
    that the call leaves on the layer. *)
Definition forward (x : tensor R) : result (tensor val * val) :=
  let '(batch_size, channels, height, width) := tsize x in
  if (pool_size =? 0)%nat then Raise ZeroDivisionError else
  let output_height := (height / pool_size)%nat in
  let output_width := (width / pool_size)%nat in
  let pooled_output :=
    zeros batch_size channels output_height output_width in
  let regp_total := IntZero in
  rbind
    (for_each (py_range height pool_size) (pooled_output, regp_total)
       (fun i st =>
          for_each (py_range width pool_size) st
            (fun j st => body x i j st)))
    (fun '(pooled_output, regp_total) =>
       rbind (total_div regp_total (batch_size * channels))
         (fun regp_loss => Ok (pooled_output, regp_loss))).
End Layer.
End FuzzyPoolingLayerRegP.

(** ** [class FuzzyCNNWithRegP] *)

Module FuzzyCNNWithRegP.
Section Net.
Context {Params Out : Type}.
(** [F.relu(self.conv1(x))] and [self.fc1(x.view(x.size(0), -1))]: library
    layers, functions of the learned parameters. *)
Variable conv1_relu : Params -> tensor R -> tensor R.
Variable view_fc1 : Params -> tensor val -> Out.

(** [fuzzy_pool = FuzzyPoolingLayer(pool_size=2, reg_lambda=0.01)]. *)
Definition fuzzy_pool : tensor R -> result (tensor val * val) :=
  FuzzyPoolingLayerRegP.forward 2 (1 / 100)%R.

(** The scores returned by the call, and [fuzzy_pool.regp_loss] as the
    call leaves it. *)
Definition forward (theta : Params) (x : tensor R) : result (Out * val) :=
  rbind (fuzzy_pool (conv1_relu theta x))
    (fun '(pooled, regp_loss) => Ok (view_fc1 theta pooled, regp_loss)).

(** [model(images)]. *)
Definition call (theta : Params) (x : tensor R) : result Out :=
  rmap fst (forward theta x).

(** [get_regp_loss()] after [model(images)]. *)
Definition get_regp_loss (theta : Params) (x : tensor R) : result val :=
  rmap snd (forward theta x).
End Net.
End FuzzyCNNWithRegP.

(** ** [def train]: the work done for one batch *)

Section Train.
Context {Params Img Lbl Out : Type}.
(** [model(images)] under the current parameters, [criterion], and
    [optimizer.zero_grad(); loss.backward(); optimizer.step()], which moves
    the parameters along the gradient of the scalar it is called on, given
    here as a function of the parameters. *)
Variable model : Params -> Img -> result Out.
Variable criterion : Out -> Lbl -> R.
Variable backward_step : (Params -> result R) -> Params -> Params.

(** [outputs = model(images); loss = criterion(outputs, labels)]. *)
Definition loss (images : Img) (labels : Lbl) (theta : Params) : result R :=
  rmap (fun outputs => criterion outputs labels) (model theta images).

(** One iteration of [for images, labels in train_loader], on the
    parameters and [total_loss]. *)
Definition train_batch (batch : Img * Lbl) (st : Params * R)
    : result (Params * R) :=
  let '(images, labels) := batch in
  let '(theta, total_loss) := st in
  rbind (loss images labels theta)
    (fun l =>
       Ok (backward_step (loss images labels) theta, (total_loss + l)%R)).

(** One epoch: [total_loss = 0] and the loop over the loader. *)
Definition train_epoch (train_loader : list (Img * Lbl)) (theta : Params)
    : result (Params * R) :=
  for_each train_loader (theta, 0%R) train_batch.
End Train.

(** ** The per-window computation as the specification words it *)

Module Reference.
Section Window.
Local Open Scope R_scope.
Variable window : list (list R).

(** [std] = window std + epsilon. *)
Definition std : val := vadd (std2 window) (Num eps).

(** m(x) = exp(-(x - mean)^2 / (2 std^2)). *)
Definition m (std x : R) : R :=
  exp (- ((x - mean2 window) ^ 2) / (2 * std ^ 2)).

(** The minimum, over the rows, of the maximum of m along each row. *)
Definition threshold (std : R) : R :=
  min_dim ((fun row => max_dim (m std <$> row)) <$> window).

(** An element is dominant iff its membership is at least the threshold. *)
Definition dominant (std x : R) : Prop := threshold std <= m std x.

Definition dominant_dec (std x : R) : {dominant std x} + {¬ dominant std x} :=
  Rle_dec (threshold std) (m std x).

(** weight = m / (sum of all m in the window + epsilon). *)
Definition weight (std x : R) : R :=
  m std x / (rsum (m std <$> concat window) + eps).

(** The sum over the window of masked value times weight. *)
Definition pooled : val :=
  match std with
  | Num std =>
      Num (rsum ((fun x =>
                    (if dominant_dec std x then x else 0) * weight std x)
                   <$> concat window))
  | NaN => NaN
  end.

(** sum(membership^2) over the window. *)
Definition sq_sum (std : R) : R :=
  rsum ((fun x => m std x ^ 2) <$> concat window).
End Window.
End Reference.

(** The membership map of a window whose deviation is a number. *)
Definition gmf_real (w : list (list R)) : list (list R) :=
  emap (fun x =>
          FuzzyPoolingLayer.gaussian_membership x (mean2 w)
            (std_real w + eps)%R) w.

(** Windows of the examples: 2x2 of one value, and a single element. *)
Definition flat_window (c : R) : list (list R) := [[c; c]; [c; c]].
Definition single_window : list (list R) := [[0%R]].

(** A 2x2 window with one outlier. *)
Definition outlier_window : list (list R) := [[1; 1]; [1; 5]]%R.

(** The smallest and the largest element of a window. *)
Definition window_min (w : list (list R)) : R := min_dim (concat w).
Definition window_max (w : list (list R)) : R := max_dim (concat w).

(** The slice of a tensor at one batch item and channel. *)
Definition plane {A} (x : tensor A) (b c : nat) : option (list (list A)) :=
  img ← tdata x !! b; img !! c.

(** What the plain layer computes for the window of a slice at rows [i..],
    columns [j..]. *)
Definition pool_slice (p i j : nat) (pl : list (list R)) : val :=
  let w := slice2 i j p pl in
  FuzzyPoolingLayer.pool w (FuzzyPoolingLayer.membership w).

(** The value that one iteration of the RegP layer adds to [regp_total], for
    the window at the corner [k]. *)
Definition window_penalty (reg_lambda : R) (p : nat) (x : tensor R)
    (k : nat * nat) : val :=
  FuzzyPoolingLayerRegP.regularization_penalty reg_lambda
    (emap FuzzyPoolingLayerRegP.membership (slice4 k.1 k.2 p x)).

(** [regp_total] after the loops over the given corners. *)
Definition regp_total_after (reg_lambda : R) (p : nat) (x : tensor R)
    (ks : list (nat * nat)) : FuzzyPoolingLayerRegP.total :=
  foldl FuzzyPoolingLayerRegP.total_add FuzzyPoolingLayerRegP.IntZero
    (window_penalty reg_lambda p x <$> ks).

(** The (batch, channel) slices of a tensor, in order. *)
Definition slices {A} (x : tensor A) : list (list (list A)) := concat (tdata x).

(** The top-left corners of the windows visited by the two loops. *)
Definition corners (height width p : nat) : list (nat * nat) :=
  i ← py_range height p; j ← py_range width p; [(i, j)].

(** The total of sum(membership^2) over all windows, batch items and
    channels, for windows of at least two elements. *)
Definition sq_total (p : nat) (x : tensor R) : R :=
  let '(_, _, height, width) := tsize x in
  rsum ((fun ij : nat * nat =>
           rsum ((fun pl =>
                    let w := slice2 ij.1 ij.2 p pl in
                    Reference.sq_sum w (std_real w + eps)%R) <$> slices x))
          <$> corners height width p).

(** Inputs of the examples: the empty tensor of size (0, 1, 0, 0) and a
    3x2 map of zeros. *)
Definition empty_input : tensor R := Tensor (0, 1, 0, 0) [].
Definition odd_input : tensor R := full 1 1 3 2 0%R.

(** ** [class MaxPoolingLayer] *)

(** Results of code that can also fail inside a tensor operation: a value, a
    Python exception as above, or the RuntimeError of PyTorch. *)
Inductive torch_result (A : Type) : Type :=
  | Return (a : A)
  | Throw (e : exn)
  | RuntimeError.
Arguments Return {A} a.
Arguments Throw {A} e.
Arguments RuntimeError {A}.

Definition lift {A} (m : result A) : torch_result A :=
  match m with
  | Ok a => Return a
  | Raise e => Throw e
  end.

(** [for i in l: s = body i s], stopping at the first failure. *)
Fixpoint for_each_torch {I S : Type} (l : list I) (s : S)
    (body : I -> S -> torch_result S) : torch_result S :=
  match l with
  | [] => Return s
  | i :: l' =>
      match body i s with
      | Return s' => for_each_torch l' s' body
      | Throw e => Throw e
      | RuntimeError => RuntimeError
      end
  end.

Module MaxPoolingLayer.
Section Layer.
Variable pool_size : nat.

(** [window.reshape(batch_size, channels, -1)] of a window whose two leading
    sizes are [batch_size] and [channels]: each slice is flattened row by
    row; with [batch_size * channels = 0] the size -1 cannot be inferred and
    [reshape] fails. *)
Definition reshape_flat (batch_size channels : nat)
    (window : list (list (list (list R)))) : option (list (list (list R))) :=
  if (batch_size * channels =? 0)%nat then None
  else Some (emap (fun pl => concat pl) window).

(** The body of the two loops: [torch.max(..., dim=2)[0]] reduces the
    flattened window, which is not empty. *)
Definition body (batch_size channels : nat) (x : tensor R) (i j : nat)
    (pooled_output : tensor val) : torch_result (tensor val) :=
  let window := slice4 i j pool_size x in
  match reshape_flat batch_size channels window with
  | Some flat =>
      let max_value := emap (fun w => Num (max_dim w)) flat in
      lift (index_put pooled_output (i / pool_size) (j / pool_size) max_value)
  | None => RuntimeError
  end.

Definition forward (x : tensor R) : torch_result (tensor val) :=
  let '(batch_size, channels, height, width) := tsize x in
  if (pool_size =? 0)%nat then Throw ZeroDivisionError else
  let output_height := (height / pool_size)%nat in
  let output_width := (width / pool_size)%nat in
  let pooled_output :=
    zeros batch_size channels output_height output_width in
  for_each_torch (py_range height pool_size) pooled_output
    (fun i pooled_output =>
       for_each_torch (py_range width pool_size) pooled_output
         (fun j pooled_output =>
            body batch_size channels x i j pooled_output)).
End Layer.
End MaxPoolingLayer.

(** ** [def test] *)

Section Test.
Context {Params Img Lbl Out : Type}.
(** [model(images)] and [criterion] as in [train]; the number of positions
    where [torch.max(outputs.data, 1)[1]] equals [labels], and
    [labels.size(0)]. *)
Variable model : Params -> Img -> result Out.
Variable criterion : Out -> Lbl -> R.
Variable num_correct : Out -> Lbl -> nat.
Variable size0 : Lbl -> nat.

(** One iteration of [for images, labels in test_loader], on [test_loss],
    [correct] and [total]. *)
Definition test_batch (theta : Params) (batch : Img * Lbl)
    (st : R * nat * nat) : result (R * nat * nat) :=
  let '(images, labels) := batch in
  let '(test_loss, correct, total) := st in
  rbind (model theta images)
    (fun outputs =>
       Ok ((test_loss + criterion outputs labels)%R,
           (correct + num_correct outputs labels)%nat,
           (total + size0 labels)%nat)).

(** The whole function: the two final divisions are between Python numbers
    and raise on a zero divisor. *)
Definition test (theta : Params) (test_loader : list (Img * Lbl))
    : result (R * R) :=
  rbind (for_each test_loader (0%R, 0%nat, 0%nat) (test_batch theta))
    (fun '(test_loss, correct, total) =>
       if (length test_loader =? 0)%nat then Raise ZeroDivisionError else
       let avg_loss := (test_loss / INR (length test_loader))%R in
       if (total =? 0)%nat then Raise ZeroDivisionError else
       let accuracy := (100 * INR correct / INR total)%R in
       Ok (avg_loss, accuracy)).
End Test.

(** * Properties *)

(** ** Sums, maxima and minima of lists of reals *)

Section RealLists.
Local Open Scope R_scope.
Implicit Types (l : list R) (w : list (list R)).

Lemma eps_pos : 0 < eps.
Proof. unfold eps. lra. Qed.

Lemma rsum_nil : rsum [] = 0.
Proof. reflexivity. Qed.

Lemma rsum_cons x l : rsum (x :: l) = x + rsum l.
Proof. reflexivity. Qed.

Lemma rsum_app l1 l2 : rsum (l1 ++ l2) = rsum l1 + rsum l2.
Proof.
  induction l1 as [|x l1 IH].
  - rewrite app_nil_l, rsum_nil. lra.
  - rewrite <- app_comm_cons, !rsum_cons, IH. lra.
Qed.

Lemma sum2_concat w : sum2 w = rsum (concat w).
Proof.
  unfold sum2. induction w as [|row w IH]; [done|].
  rewrite fmap_cons, concat_cons, rsum_app, rsum_cons. f_equal. exact IH.
Qed.

Lemma concat_emap {A B} (f : A -> B) (m : list (list A)) :
  concat (emap f m) = f <$> concat m.
Proof.
  unfold emap. induction m as [|row m IH]; simpl; [done|].
  rewrite fmap_app. f_equal. exact IH.
Qed.

Lemma sum2_emap {A} (f : A -> R) (m : list (list A)) :
  sum2 (emap f m) = rsum (f <$> concat m).
Proof. rewrite sum2_concat, concat_emap. done. Qed.

Lemma numel_emap (f : R -> R) w : numel (emap f w) = numel w.
Proof. unfold numel. rewrite concat_emap, length_fmap. done. Qed.

Lemma zip_with_fmap_same {A B C D} (h : B -> C -> D) (f : A -> B)
    (g : A -> C) (k : list A) :
  zip_with h (f <$> k) (g <$> k) = (fun a => h (f a) (g a)) <$> k.
Proof. induction k as [|a k IH]; simpl; [done|]. f_equal. exact IH. Qed.

Lemma mul2_emap {A} (f g : A -> R) (m : list (list A)) :
  mul2 (emap f m) (emap g m) = emap (fun a => f a * g a) m.
Proof.
  unfold mul2, emap. rewrite zip_with_fmap_same.
  apply list_fmap_ext. intros _ row _. apply zip_with_fmap_same.
Qed.

Lemma emap_id {A} (m : list (list A)) : emap (fun a => a) m = m.
Proof.
  unfold emap. induction m as [|row m IH]; simpl; [done|].
  f_equal; [apply list_fmap_id|exact IH].
Qed.

Lemma emap_emap {A B C} (f : A -> B) (g : B -> C) (m : list (list A)) :
  emap g (emap f m) = emap (fun a => g (f a)) m.
Proof.
  unfold emap. rewrite <- list_fmap_compose.
  apply list_fmap_ext. intros _ row _. simpl.
  by rewrite <- list_fmap_compose.
Qed.

Lemma rsum_fmap_le {A} (f g : A -> R) (k : list A) :
  (forall a, a ∈ k -> f a <= g a) -> rsum (f <$> k) <= rsum (g <$> k).
Proof.
  induction k as [|a k IH]; intros H.
  - rewrite !fmap_nil. lra.
  - rewrite !fmap_cons, !rsum_cons.
    assert (f a <= g a) by (apply H; left).
    assert (rsum (f <$> k) <= rsum (g <$> k))
      by (apply IH; intros; apply H; by right).
    lra.
Qed.

Lemma rsum_fmap_scale {A} (c : R) (f : A -> R) (k : list A) :
  rsum ((fun a => c * f a) <$> k) = c * rsum (f <$> k).
Proof.
  induction k as [|a k IH].
  - rewrite !fmap_nil, rsum_nil. lra.
  - rewrite !fmap_cons, !rsum_cons, IH. lra.
Qed.

Lemma rsum_fmap_ext {A} (f g : A -> R) (k : list A) :
  (forall a, a ∈ k -> f a = g a) -> rsum (f <$> k) = rsum (g <$> k).
Proof.
  intros H. apply Rle_antisym; apply rsum_fmap_le; intros a Ha;
    rewrite (H a Ha); lra.
Qed.

Lemma rsum_fmap_const {A} (c : R) (k : list A) :
  rsum ((fun _ => c) <$> k) = INR (length k) * c.
Proof.
  induction k as [|a k IH].
  - rewrite fmap_nil, rsum_nil. simpl. lra.
  - rewrite fmap_cons, rsum_cons, IH, length_cons, S_INR. lra.
Qed.

Lemma rsum_fmap_nonneg {A} (f : A -> R) (k : list A) :
  (forall a, a ∈ k -> 0 <= f a) -> 0 <= rsum (f <$> k).
Proof.
  intros H. pose proof (rsum_fmap_le (fun _ => 0) f k H) as Hle.
  rewrite rsum_fmap_const in Hle. lra.
Qed.

Lemma rsum_fmap_pos {A} (f : A -> R) (k : list A) :
  k <> [] -> (forall a, a ∈ k -> 0 < f a) -> 0 < rsum (f <$> k).
Proof.
  destruct k as [|a k]; [done|]. intros _ H.
  rewrite fmap_cons, rsum_cons.
  assert (0 < f a) by (apply H; left).
  assert (0 <= rsum (f <$> k)).
  { apply rsum_fmap_nonneg. intros b Hb. left. apply H. by right. }
  lra.
Qed.

Lemma foldl_Rmax_ge l x : x <= foldl Rmax x l.
Proof.
  revert x. induction l as [|y l IH]; intros x; simpl; [lra|].
  etransitivity; [apply (Rmax_l x y)|apply IH].
Qed.

Lemma foldl_Rmax_elem l x y : y ∈ l -> y <= foldl Rmax x l.
Proof.
  revert x. induction l as [|z l IH]; intros x Hy; simpl.
  - by apply elem_of_nil in Hy.
  - apply elem_of_cons in Hy as [->|Hy]; [|by apply IH].
    etransitivity; [apply (Rmax_r x z)|apply foldl_Rmax_ge].
Qed.

Lemma foldl_Rmin_le l x : foldl Rmin x l <= x.
Proof.
  revert x. induction l as [|y l IH]; intros x; simpl; [lra|].
  etransitivity; [apply IH|apply Rmin_l].
Qed.

Lemma foldl_Rmin_elem l x y : y ∈ l -> foldl Rmin x l <= y.
Proof.
  revert x. induction l as [|z l IH]; intros x Hy; simpl.
  - by apply elem_of_nil in Hy.
  - apply elem_of_cons in Hy as [->|Hy]; [|by apply IH].
    etransitivity; [apply foldl_Rmin_le|apply Rmin_r].
Qed.

Lemma max_dim_ge l x : x ∈ l -> x <= max_dim l.
Proof.
  destruct l as [|y l]; intros Hx; [by apply elem_of_nil in Hx|].
  apply elem_of_cons in Hx as [->|Hx]; simpl.
  - apply foldl_Rmax_ge.
  - by apply foldl_Rmax_elem.
Qed.

Lemma min_dim_le l x : x ∈ l -> min_dim l <= x.
Proof.
  destruct l as [|y l]; intros Hx; [by apply elem_of_nil in Hx|].
  apply elem_of_cons in Hx as [->|Hx]; simpl.
  - apply foldl_Rmin_le.
  - by apply foldl_Rmin_elem.
Qed.

Lemma foldl_Rmax_const l c : Forall (eq c) l -> foldl Rmax c l = c.
Proof.
  induction 1 as [|y l <- _ IH]; simpl; [done|].
  rewrite Rmax_left by lra. done.
Qed.

Lemma foldl_Rmin_const l c : Forall (eq c) l -> foldl Rmin c l = c.
Proof.
  induction 1 as [|y l <- _ IH]; simpl; [done|].
  rewrite Rmin_left by lra. done.
Qed.
End RealLists.

(** ** One window of one slice *)

Section Window.
Local Open Scope R_scope.
Import FuzzyPoolingLayer.
Implicit Types (w : list (list R)).

Lemma std_real_nonneg w : 0 <= std_real w.
Proof. apply sqrt_pos. Qed.

Lemma std2_some w : (2 <= numel w)%nat -> std2 w = Num (std_real w).
Proof.
  intros H. unfold std2.
  destruct (Nat.leb_spec (numel w) 1); [lia|done].
Qed.

Lemma std2_none w : (numel w <= 1)%nat -> std2 w = NaN.
Proof.
  intros H. unfold std2.
  destruct (Nat.leb_spec (numel w) 1); [done|lia].
Qed.

Lemma membership_some w :
  (2 <= numel w)%nat -> membership w = Some (gmf_real w).
Proof. intros H. unfold membership. rewrite std2_some by done. done. Qed.

Lemma membership_none w : (numel w <= 1)%nat -> membership w = None.
Proof. intros H. unfold membership. rewrite std2_none by done. done. Qed.

Lemma gaussian_membership_pos x mean std :
  0 < gaussian_membership x mean std.
Proof. apply exp_pos. Qed.

Lemma gmf_sum_nonneg w : 0 <= sum2 (gmf_real w).
Proof.
  unfold gmf_real. rewrite sum2_emap. apply rsum_fmap_nonneg.
  intros x _. left. apply gaussian_membership_pos.
Qed.

(** The pooled value as one sum over the elements of the window. *)
Lemma pool_sum (f : R -> R) w :
  pool w (Some (emap f w)) =
  Num (rsum ((fun x =>
                x * ge_float (f x) (min_dim (max_dim <$> emap f w))
                * (f x / (rsum (f <$> concat w) + eps))) <$> concat w)).
Proof.
  unfold pool. f_equal.
  rewrite !emap_emap, sum2_emap.
  rewrite <- (emap_id w) at 1. rewrite !mul2_emap, sum2_emap. done.
Qed.

Lemma ge_float_cases g t :
  (t <= g /\ ge_float g t = 1) \/ (g < t /\ ge_float g t = 0).
Proof. unfold ge_float. destruct (Rle_dec t g); [left|right]; lra. Qed.

(** A sum of masked values times non-negative weights of total at most 1
    stays between [lo <= 0] and [hi >= 0] that bound the values. *)
Lemma masked_weighted_sum_bounds (l : list R) (mask wt : R -> R) lo hi :
  lo <= 0 <= hi ->
  (forall x, x ∈ l -> lo <= x <= hi) ->
  (forall x, x ∈ l -> mask x = 0 \/ mask x = 1) ->
  (forall x, x ∈ l -> 0 <= wt x) ->
  rsum (wt <$> l) <= 1 ->
  lo <= rsum ((fun x => x * mask x * wt x) <$> l) <= hi.
Proof.
  intros Hlh Hx Hm Hw Hs.
  assert (0 <= rsum (wt <$> l)) by by apply rsum_fmap_nonneg.
  split.
  - apply Rle_trans with (rsum ((fun x => lo * wt x) <$> l)).
    + rewrite rsum_fmap_scale. nra.
    + apply rsum_fmap_le. intros x Hin.
      specialize (Hx x Hin). specialize (Hw x Hin).
      destruct (Hm x Hin) as [-> | ->]; nra.
  - apply Rle_trans with (rsum ((fun x => hi * wt x) <$> l)).
    + apply rsum_fmap_le. intros x Hin.
      specialize (Hx x Hin). specialize (Hw x Hin).
      destruct (Hm x Hin) as [-> | ->]; nra.
    + rewrite rsum_fmap_scale. nra.
Qed.

Lemma window_min_le w x : x ∈ concat w -> window_min w <= x.
Proof. apply min_dim_le. Qed.

Lemma window_max_ge w x : x ∈ concat w -> x <= window_max w.
Proof. apply max_dim_ge. Qed.

(** The source's pooled value is the reference computation. *)
Lemma pool_reference w : pool w (membership w) = Reference.pooled w.
Proof.
  unfold membership, Reference.pooled, Reference.std.
  destruct (vadd (std2 w) (Num eps)) as [std|]; [|done].
  rewrite pool_sum. f_equal.
  assert (Ht : min_dim (max_dim <$>
                 emap (fun x => gaussian_membership x (mean2 w) std) w)
               = Reference.threshold w std).
  { unfold Reference.threshold, emap. rewrite <- list_fmap_compose. done. }
  rewrite Ht. apply rsum_fmap_ext. intros x _.
  unfold Reference.weight, Reference.dominant_dec, ge_float.
  change (gaussian_membership x (mean2 w) std) with (Reference.m w std x).
  change (fun x => gaussian_membership x (mean2 w) std)
    with (Reference.m w std).
  destruct (Rle_dec (Reference.threshold w std) (Reference.m w std x)); lra.
Qed.
End Window.

(** ** Windows whose elements are all equal *)

Section ConstantWindow.
Local Open Scope R_scope.
Import FuzzyPoolingLayer.
Variables (c : R) (w : list (list R)).
Hypothesis Hconst : forall x, x ∈ concat w -> x = c.
Hypothesis Hnumel : (2 <= numel w)%nat.

Lemma numel_pos : 0 < INR (numel w).
Proof. apply lt_0_INR. lia. Qed.

Lemma emap_const_ext (f : R -> R) : emap f w = emap (fun _ => f c) w.
Proof.
  unfold emap. apply list_fmap_ext. intros i row Hrow.
  apply list_fmap_ext. intros j x Hx. f_equal. apply Hconst.
  apply list_elem_of_In, in_concat. exists row.
  split; apply list_elem_of_In; eapply list_elem_of_lookup_2; eassumption.
Qed.

Lemma const_mean : mean2 w = c.
Proof.
  unfold mean2. rewrite sum2_concat.
  rewrite <- (list_fmap_id (concat w)) at 1.
  rewrite (rsum_fmap_ext _ (fun _ => c)) by (intros x Hx; by apply Hconst).
  rewrite rsum_fmap_const. fold (numel w).
  pose proof numel_pos. field. lra.
Qed.

Lemma const_sq_sum std : Reference.sq_sum w std = INR (numel w).
Proof.
  unfold Reference.sq_sum.
  rewrite (rsum_fmap_ext _ (fun _ => 1)).
  - rewrite rsum_fmap_const. fold (numel w). ring.
  - intros x Hx. rewrite (Hconst x Hx). unfold Reference.m.
    rewrite const_mean.
    replace (- (c - c) ^ 2 / (2 * std ^ 2)) with 0 by (unfold Rdiv; ring).
    rewrite exp_0. ring.
Qed.
End ConstantWindow.

(** ** A window with one outlier *)

Section Undershoot.
Local Open Scope R_scope.
Import FuzzyPoolingLayer.

Lemma outlier_window_mean : mean2 outlier_window = 2.
Proof.
  unfold mean2, outlier_window. rewrite sum2_concat. unfold numel. simpl.
  rewrite !rsum_cons, rsum_nil. lra.
Qed.

Lemma ge_float_true g t : t <= g -> ge_float g t = 1.
Proof.
  intros. destruct (ge_float_cases g t) as [[_ ->]|[? _]]; [done|lra].
Qed.

Lemma ge_float_false g t : g < t -> ge_float g t = 0.
Proof.
  intros. destruct (ge_float_cases g t) as [[? _]|[_ ->]]; [lra|done].
Qed.

(** The outlier 5 is not dominant, so the three 1s are summed with weights
    whose total is below 1. *)
Lemma undershoot :
  exists r,
    pool outlier_window (membership outlier_window) = Num r /\
    r < window_min outlier_window.
Proof.
  rewrite membership_some by (unfold numel; simpl; lia).
  unfold gmf_real. rewrite pool_sum. eexists. split; [done|].
  rewrite outlier_window_mean.
  pose proof (std_real_nonneg outlier_window) as Hs. pose proof eps_pos as He.
  set (s := std_real outlier_window + eps) in *.
  assert (Hs0 : 0 < s) by (unfold s; lra). clearbody s.
  set (f := fun x => gaussian_membership x 2 s).
  assert (Hab : f 5 < f 1).
  { unfold f, gaussian_membership. apply exp_increasing.
    assert (0 < / (2 * s ^ 2)) by (apply Rinv_0_lt_compat; nra).
    unfold Rdiv. nra. }
  assert (Ha : 0 < f 1) by apply gaussian_membership_pos.
  assert (Hb : 0 < f 5) by apply gaussian_membership_pos.
  change (fun x => x * ge_float (gaussian_membership x 2 s) ?t
                    * (gaussian_membership x 2 s / ?d))
    with (fun x => x * ge_float (f x) t * (f x / d)).
  unfold outlier_window, window_min, emap. simpl.
  rewrite !rsum_cons, rsum_nil.
  rewrite (Rmax_left (f 1) (f 1)), (Rmax_left (f 1) (f 5)),
    (Rmin_left (f 1) (f 1)) by lra.
  rewrite (ge_float_true (f 1) (f 1)), (ge_float_false (f 5) (f 1)) by lra.
  rewrite (Rmin_left 1 1) by lra. rewrite (Rmin_left 1 1) by lra.
  rewrite (Rmin_left 1 5) by lra.
  set (D := f 1 + (f 1 + (f 1 + (f 5 + 0))) + eps).
  assert (HD : 0 < D) by (unfold D; lra).
  assert (Hi : D * / D = 1) by (apply Rinv_r; lra).
  assert (Hp : 0 < / D) by by apply Rinv_0_lt_compat.
  unfold Rdiv. set (i := / D) in *. clearbody i. unfold D in Hi.
  set (a := f 1) in *. set (b := f 5) in *. clearbody a b.
  assert (0 < (b + eps) * i) by (apply Rmult_lt_0_compat; lra).
  lra.
Qed.
End Undershoot.

(** ** Loops *)

Section ForEach.
Context {I S : Type}.
Implicit Types (l : list I) (s : S) (f : I -> S -> result S).

Lemma for_each_app l1 l2 s f :
  for_each (l1 ++ l2) s f
  = rbind (for_each l1 s f) (fun s' => for_each l2 s' f).
Proof.
  revert s. induction l1 as [|i l1 IH]; intros s; simpl; [done|].
  destruct (f i s) as [s'|e]; simpl; [apply IH|done].
Qed.

Lemma for_each_ext l s f g :
  (forall i s', f i s' = g i s') -> for_each l s f = for_each l s g.
Proof.
  intros H. revert s. induction l as [|i l IH]; intros s; simpl; [done|].
  rewrite H. destruct (g i s); simpl; [apply IH|done].
Qed.
End ForEach.

(** Two nested loops visit the pairs of the product in order. *)
Lemma for_each_nested {I J S} (li : list I) (lj : list J) (s : S)
    (f : I -> J -> S -> result S) :
  for_each li s (fun i s => for_each lj s (f i))
  = for_each (i ← li; j ← lj; [(i, j)]) s (fun ij s => f ij.1 ij.2 s).
Proof.
  revert s. induction li as [|i li IH]; intros s; [done|].
  rewrite bind_cons, for_each_app. simpl.
  assert (Hin : forall s0, for_each (lj ≫= (fun j => [(i, j)])) s0
                  (fun ij s => f ij.1 ij.2 s) = for_each lj s0 (f i)).
  { clear. induction lj as [|j lj IH]; intros s0; [done|].
    rewrite bind_cons. simpl. destruct (f i j s0); simpl; [apply IH|done]. }
  rewrite Hin. destruct (for_each lj s (f i)); simpl; [apply IH|done].
Qed.

(** ** Writing one output position *)

Section IndexPut.
Variables (B C oh ow : nat).
Implicit Types (out : tensor val) (v : list (list val)).

Lemma index_put_ok out oi oj v :
  tsize out = (B, C, oh, ow) -> oi < oh -> oj < ow ->
  index_put out oi oj v
  = Ok (Tensor (tsize out)
          (zip_with (zip_with (fun pl e => alter (<[oj := e]>) oi pl))
             (tdata out) v)).
Proof.
  intros Hs Hi Hj. unfold index_put. rewrite Hs.
  destruct (Nat.ltb_spec oi oh); [|lia].
  destruct (Nat.ltb_spec oj ow); [|lia]. done.
Qed.

Lemma index_put_raise out oi oj v :
  tsize out = (B, C, oh, ow) -> ¬ (oi < oh /\ oj < ow) ->
  index_put out oi oj v = Raise IndexError.
Proof.
  intros Hs Hn. unfold index_put. rewrite Hs.
  destruct (Nat.ltb_spec oi oh); destruct (Nat.ltb_spec oj ow);
    simpl; try done. lia.
Qed.

Lemma index_put_cases out oi oj v :
  tsize out = (B, C, oh, ow) ->
  (oi < oh /\ oj < ow /\
   exists out', index_put out oi oj v = Ok out' /\ tsize out' = tsize out)
  \/ (¬ (oi < oh /\ oj < ow) /\ index_put out oi oj v = Raise IndexError).
Proof.
  intros Hs. destruct (decide (oi < oh /\ oj < ow)) as [[Hi Hj]|Hn].
  - left. split; [done|]. split; [done|].
    eexists. split; [by apply index_put_ok|done].
  - right. split; [done|]. by apply index_put_raise.
Qed.

Lemma index_put_wf out oi oj v out' :
  tsize out = (B, C, oh, ow) -> tensor_wf out -> plane_wf B C v ->
  index_put out oi oj v = Ok out' ->
  tsize out' = (B, C, oh, ow) /\ tensor_wf out'.
Proof.
  intros Hs Hwf [Hv1 Hv2] Hput.
  destruct (index_put_cases out oi oj v Hs) as [(Hi & Hj & _)|[_ Hr]];
    [|congruence].
  rewrite index_put_ok in Hput by done. injection Hput as <-.
  split; [done|]. unfold tensor_wf in *. simpl. rewrite Hs in *.
  destruct Hwf as [Hlen Himg]. split.
  - rewrite length_zip_with. lia.
  - apply Forall_lookup_2. intros b img'.
    rewrite lookup_zip_with. intros Hb.
    destruct (tdata out !! b) as [img|] eqn:Eimg; [|done].
    destruct (v !! b) as [r|] eqn:Er; [|done]. simpl in Hb.
    injection Hb as <-.
    destruct (Forall_lookup_1 _ _ _ _ Himg Eimg) as [Hc Hpl].
    pose proof (Forall_lookup_1 _ _ _ _ Hv2 Er) as Hr. simpl in Hr.
    split; [rewrite length_zip_with; lia|].
    apply Forall_lookup_2. intros c pl'.
    rewrite lookup_zip_with. intros Hc'.
    destruct (img !! c) as [pl|] eqn:Epl; [|done].
    destruct (r !! c) as [e|] eqn:Ee; [|done]. simpl in Hc'.
    injection Hc' as <-.
    destruct (Forall_lookup_1 _ _ _ _ Hpl Epl) as [Hh Hrows].
    split; [by rewrite length_alter|].
    apply Forall_alter; [done|].
    intros row Hrow. by rewrite length_insert.
Qed.

Lemma index_put_cell out oi oj v out' b c i j :
  tsize out = (B, C, oh, ow) -> tensor_wf out -> plane_wf B C v ->
  index_put out oi oj v = Ok out' ->
  cell out' b c i j
  = if decide (i = oi /\ j = oj) then r ← v !! b; r !! c
    else cell out b c i j.
Proof.
  intros Hs Hwf [Hv1 Hv2] Hput.
  destruct (index_put_cases out oi oj v Hs) as [(Hi & Hj & _)|[_ Hr]];
    [|congruence].
  rewrite index_put_ok in Hput by done. injection Hput as <-.
  unfold tensor_wf in Hwf. rewrite Hs in Hwf. destruct Hwf as [Hlen Himg].
  unfold cell. simpl. rewrite lookup_zip_with.
  destruct (tdata out !! b) as [img|] eqn:Eimg; simpl.
  2:{ apply lookup_ge_None_1 in Eimg.
      rewrite (lookup_ge_None_2 v b) by lia. by case_decide. }
  destruct (Forall_lookup_1 _ _ _ _ Himg Eimg) as [Hc Hpl].
  destruct (v !! b) as [r|] eqn:Er; simpl.
  2:{ apply lookup_ge_None_1 in Er. apply lookup_lt_Some in Eimg. lia. }
  pose proof (Forall_lookup_1 _ _ _ _ Hv2 Er) as Hr. simpl in Hr.
  rewrite lookup_zip_with.
  destruct (img !! c) as [pl|] eqn:Epl; simpl.
  2:{ apply lookup_ge_None_1 in Epl.
      rewrite (lookup_ge_None_2 r c) by lia. by case_decide. }
  destruct (Forall_lookup_1 _ _ _ _ Hpl Epl) as [Hh Hrows].
  destruct (r !! c) as [e|] eqn:Ee; simpl.
  2:{ apply lookup_ge_None_1 in Ee. apply lookup_lt_Some in Epl. lia. }
  case_decide as Hij.
  - destruct Hij as [-> ->]. rewrite list_lookup_alter_eq.
    destruct (pl !! oi) as [row|] eqn:Erow; simpl.
    + pose proof (Forall_lookup_1 _ _ _ _ Hrows Erow) as Hw. simpl in Hw.
      apply list_lookup_insert_eq. lia.
    + apply lookup_ge_None_1 in Erow. lia.
  - destruct (decide (i = oi)) as [->|Hne].
    + rewrite list_lookup_alter_eq.
      destruct (pl !! oi) as [row|]; simpl; [|done].
      apply list_lookup_insert_ne. intros ->. by apply Hij.
    + rewrite list_lookup_alter_ne by done. done.
Qed.
End IndexPut.

(** ** A sequence of writes, one per window *)

Section Writes.
Variables (B C oh ow p : nat).
(** The (batch, channel) matrix written for the window at a corner. *)
Variable V : nat * nat -> list (list val).
Hypothesis V_wf : forall k, plane_wf B C (V k).

Local Abbreviation put :=
  (fun (k : nat * nat) (out : tensor val) =>
     index_put out (k.1 / p) (k.2 / p) (V k)).
Local Abbreviation inb k := (k.1 / p < oh /\ k.2 / p < ow).

Lemma writes_ok ks out :
  tsize out = (B, C, oh, ow) -> tensor_wf out ->
  Forall (fun k => inb k) ks ->
  exists out', for_each ks out put = Ok out' /\
    tsize out' = (B, C, oh, ow) /\ tensor_wf out'.
Proof.
  intros Hs Hwf Hks. revert out Hs Hwf.
  induction Hks as [|k ks [Hi Hj] _ IH]; intros out Hs Hwf; simpl.
  { by exists out. }
  pose proof (index_put_ok B C oh ow out _ _ (V k) Hs Hi Hj) as Hput.
  destruct (index_put_wf B C oh ow _ _ _ _ _ Hs Hwf (V_wf k) Hput)
    as [Hs1 Hwf1].
  rewrite Hput. simpl. by apply IH.
Qed.

Lemma writes_raise ks out :
  tsize out = (B, C, oh, ow) ->
  Exists (fun k => ¬ inb k) ks ->
  for_each ks out put = Raise IndexError.
Proof.
  intros Hs Hks. revert out Hs.
  induction ks as [|k ks IH]; intros out Hs; [by inversion Hks|].
  simpl.
  destruct (index_put_cases B C oh ow out (k.1 / p) (k.2 / p) (V k) Hs)
    as [(Hi & Hj & out' & -> & Hs')|[Hn ->]]; [|done].
  simpl. apply IH; [|congruence].
  inversion Hks as [?? Hbad|]; subst; [|done]. tauto.
Qed.

Lemma writes_inv ks out out' :
  tsize out = (B, C, oh, ow) -> tensor_wf out ->
  for_each ks out put = Ok out' ->
  tsize out' = (B, C, oh, ow) /\ tensor_wf out' /\
  Forall (fun k => inb k) ks.
Proof.
  revert out. induction ks as [|k ks IH]; intros out Hs Hwf Hrun.
  { simpl in Hrun. injection Hrun as <-. done. }
  simpl in Hrun.
  destruct (index_put_cases B C oh ow out (k.1 / p) (k.2 / p) (V k) Hs)
    as [(Hi & Hj & out1 & Hput & Hs')|[Hn Hput]];
    rewrite Hput in Hrun; simpl in Hrun; [|done].
  destruct (index_put_wf B C oh ow _ _ _ _ _ Hs Hwf (V_wf k) Hput)
    as [Hs1 Hwf1].
  destruct (IH out1 Hs1 Hwf1 Hrun) as (? & ? & ?).
  repeat split; try done. by constructor.
Qed.

(** A position that no later window writes keeps its value. *)
Lemma writes_untouched ks out out' b c i j :
  tsize out = (B, C, oh, ow) -> tensor_wf out ->
  for_each ks out put = Ok out' ->
  Forall (fun k => (k.1 / p, k.2 / p) <> (i, j)) ks ->
  cell out' b c i j = cell out b c i j.
Proof.
  intros Hs Hwf Hrun Hks. revert out Hs Hwf Hrun.
  induction Hks as [|k ks Hk _ IH]; intros out Hs Hwf Hrun.
  { simpl in Hrun. by injection Hrun as <-. }
  simpl in Hrun.
  destruct (index_put out (k.1 / p) (k.2 / p) (V k)) as [out1|] eqn:Hput;
    simpl in Hrun; [|done].
  destruct (index_put_wf B C oh ow _ _ _ _ _ Hs Hwf (V_wf k) Hput)
    as [Hs1 Hwf1].
  rewrite (IH out1 Hs1 Hwf1 Hrun).
  rewrite (index_put_cell B C oh ow _ _ _ _ _ b c i j Hs Hwf (V_wf k) Hput).
  case_decide as Hij; [|done]. destruct Hij as [-> ->]. done.
Qed.

(** The last window written at a position decides its value. *)
Lemma writes_touched l1 k l2 out out' b c :
  tsize out = (B, C, oh, ow) -> tensor_wf out ->
  for_each (l1 ++ k :: l2) out put = Ok out' ->
  Forall (fun k' => (k'.1 / p, k'.2 / p) <> (k.1 / p, k.2 / p)) l2 ->
  cell out' b c (k.1 / p) (k.2 / p) = r ← V k !! b; r !! c.
Proof.
  intros Hs Hwf Hrun Hl2. rewrite for_each_app in Hrun.
  destruct (for_each l1 out put) as [out1|] eqn:H1; simpl in Hrun; [|done].
  destruct (writes_inv _ _ _ Hs Hwf H1) as (Hs1 & Hwf1 & _).
  destruct (index_put out1 (k.1 / p) (k.2 / p) (V k)) as [out2|] eqn:Hput;
    simpl in Hrun; [|done].
  destruct (index_put_wf B C oh ow _ _ _ _ _ Hs1 Hwf1 (V_wf k) Hput)
    as [Hs2 Hwf2].
  rewrite (writes_untouched l2 out2 out' b c _ _ Hs2 Hwf2 Hrun Hl2).
  rewrite (index_put_cell B C oh ow _ _ _ _ _ b c _ _ Hs1 Hwf1 (V_wf k) Hput).
  by rewrite decide_True.
Qed.
End Writes.

(** ** Ranges, corners and slices *)

Section Ranges.
Variable p : nat.
Hypothesis p_pos : 0 < p.

Lemma py_range_elem n i :
  i ∈ py_range n p <-> exists k, i = k * p /\ k * p < n.
Proof.
  unfold py_range. rewrite list_elem_of_fmap.
  assert (Hq : forall k, k < (n + p - 1) / p <-> k * p < n).
  { intros k. split; intros Hk.
    - assert ((k + 1) * p <= n + p - 1); [|lia].
      etransitivity; [|apply (Nat.Div0.mul_div_le _ p)].
      rewrite (Nat.mul_comm p). apply Nat.mul_le_mono_r. lia.
    - apply (Nat.div_le_lower_bound (n + p - 1) p (S k)); nia. }
  split.
  - intros (k & -> & Hk). exists k. split; [done|].
    apply Hq. apply elem_of_seq in Hk. lia.
  - intros (k & -> & Hk). exists k. split; [done|].
    apply elem_of_seq. apply Hq in Hk. lia.
Qed.

Lemma corners_elem h w i j :
  (i, j) ∈ corners h w p <-> i ∈ py_range h p /\ j ∈ py_range w p.
Proof.
  unfold corners. rewrite list_elem_of_bind. split.
  - intros (i' & Hj & Hi). apply list_elem_of_bind in Hj as (j' & Hij & Hj).
    apply list_elem_of_singleton in Hij. by injection Hij as -> ->.
  - intros [Hi Hj]. exists i. split; [|done].
    apply list_elem_of_bind. exists j. split; [|done].
    by apply list_elem_of_singleton.
Qed.

Lemma corners_multiples h w k :
  k ∈ corners h w p ->
  exists a b, k = (a * p, b * p) /\ a * p < h /\ b * p < w.
Proof.
  destruct k as [i j]. rewrite corners_elem, !py_range_elem.
  intros [(a & -> & ?) (b & -> & ?)]. by exists a, b.
Qed.

Lemma corner_target a b : ((a * p) / p, (b * p) / p) = (a, b).
Proof. rewrite !Nat.div_mul by lia. done. Qed.

(** With sizes that are multiples of [p] every write is in range. *)
Lemma corners_in_range oh ow :
  Forall (fun k => k.1 / p < oh /\ k.2 / p < ow) (corners (oh * p) (ow * p) p).
Proof.
  apply Forall_forall. intros k Hk.
  apply corners_multiples in Hk as (a & b & -> & Ha & Hb). simpl.
  rewrite !Nat.div_mul by lia. split; nia.
Qed.

(** Otherwise the last, partial window of a row or column is not. *)
Lemma corners_out_of_range h w :
  0 < h -> 0 < w -> h mod p <> 0 \/ w mod p <> 0 ->
  Exists (fun k => ¬ (k.1 / p < h / p /\ k.2 / p < w / p)) (corners h w p).
Proof.
  intros Hh Hw Hmod. apply Exists_exists.
  pose proof (Nat.div_mod_eq h p) as Eh.
  pose proof (Nat.div_mod_eq w p) as Ew.
  destruct Hmod as [Hm|Hm].
  - exists (h / p * p, 0 * p). split.
    + apply corners_elem. rewrite !py_range_elem. split.
      * exists (h / p). split; [done|]. lia.
      * exists 0. split; [done|]. lia.
    + simpl. rewrite Nat.div_mul by lia. lia.
  - exists (0 * p, w / p * p). split.
    + apply corners_elem. rewrite !py_range_elem. split.
      * exists 0. split; [done|]. lia.
      * exists (w / p). split; [done|]. lia.
    + simpl. rewrite Nat.div_mul by lia. lia.
Qed.

(** A complete window has [p] rows of [p] elements. *)
Lemma slice2_wf {A} h w a b (pl : list (list A)) :
  plane_wf h w pl -> (a + 1) * p <= h -> (b + 1) * p <= w ->
  plane_wf p p (slice2 (a * p) (b * p) p pl).
Proof.
  intros [Hlen Hrows] Ha Hb. unfold slice2. split.
  - rewrite length_fmap, length_take, length_drop. lia.
  - apply Forall_fmap, Forall_take, Forall_drop.
    eapply Forall_impl; [exact Hrows|]. intros row Hrow. simpl in *.
    rewrite length_take, length_drop. lia.
Qed.

Lemma numel_rect r k (m : list (list R)) : plane_wf r k m -> numel m = r * k.
Proof.
  intros [<- Hrows]. unfold numel.
  induction Hrows as [|row m Hrow _ IH]; [done|].
  rewrite concat_cons, length_app, IH, Hrow. simpl. done.
Qed.
End Ranges.

(** ** The forward pass of the plain layer *)

Section Forward.
Import FuzzyPoolingLayer.

Lemma zip2_emap {A B C D} (h : B -> C -> D) (f : A -> B) (g : A -> C)
    (m : list (list A)) :
  zip_with (zip_with h) (emap f m) (emap g m)
  = emap (fun a => h (f a) (g a)) m.
Proof.
  unfold emap. rewrite zip_with_fmap_same.
  apply list_fmap_ext. intros _ row _. apply zip_with_fmap_same.
Qed.

Lemma emap_wf {A D} (f : list (list A) -> D) (x : tensor A) B C H W :
  tsize x = (B, C, H, W) -> tensor_wf x -> plane_wf B C (emap f (tdata x)).
Proof.
  unfold tensor_wf. intros -> [Hlen Himg]. unfold emap. split.
  - by rewrite length_fmap.
  - apply Forall_fmap. eapply Forall_impl; [exact Himg|].
    intros img [Hc _]. simpl. by rewrite length_fmap.
Qed.

Lemma emap_lookup {A D} (f : A -> D) (m : list (list A)) b c :
  (r ← emap f m !! b; r !! c) = f <$> (r ← m !! b; r !! c).
Proof.
  unfold emap. rewrite list_lookup_fmap.
  destruct (m !! b) as [r|]; simpl; [|done]. apply list_lookup_fmap.
Qed.

Lemma full_wf {A} B C h w (v : A) : tensor_wf (full B C h w v).
Proof.
  unfold tensor_wf, full. simpl. split; [apply length_replicate|].
  apply Forall_replicate. split; [apply length_replicate|].
  apply Forall_replicate. split; [apply length_replicate|].
  apply Forall_replicate. apply length_replicate.
Qed.

Lemma zeros_wf B C h w : tensor_wf (zeros B C h w).
Proof. apply full_wf. Qed.

(** One iteration writes, for every slice, the pooled value of its
    window. *)
Lemma body_put p x i j out :
  body p x i j out
  = index_put out (i / p) (j / p) (emap (pool_slice p i j) (tdata x)).
Proof.
  unfold body, slice4. rewrite emap_emap, zip2_emap. done.
Qed.

Lemma forward_loop p x B C H W :
  tsize x = (B, C, H, W) -> 0 < p ->
  forward p x
  = for_each (corners H W p) (zeros B C (H / p) (W / p))
      (fun k out =>
         index_put out (k.1 / p) (k.2 / p)
           (emap (pool_slice p k.1 k.2) (tdata x))).
Proof.
  intros Hs Hp. unfold forward. rewrite Hs.
  destruct (Nat.eqb_spec p 0) as [|_]; [lia|].
  rewrite for_each_nested. apply for_each_ext.
  intros k out. apply body_put.
Qed.

(** On sizes that are multiples of [pool_size] the call returns, and every
    output position holds the pooled value of its window. *)
Lemma forward_spec p x B C oh ow :
  tsize x = (B, C, oh * p, ow * p) -> tensor_wf x -> 0 < p ->
  exists out, forward p x = Ok out /\
    tsize out = (B, C, oh, ow) /\ tensor_wf out /\
    forall b c oi oj, oi < oh -> oj < ow ->
      cell out b c oi oj
      = pool_slice p (oi * p) (oj * p) <$> plane x b c.
Proof.
  intros Hs Hwf Hp.
  rewrite (forward_loop p x B C _ _ Hs Hp), !Nat.div_mul by lia.
  set (V := fun k : nat * nat => emap (pool_slice p k.1 k.2) (tdata x)).
  assert (HV : forall k, plane_wf B C (V k)).
  { intros k. by eapply emap_wf. }
  destruct (writes_ok B C oh ow p V HV (corners (oh * p) (ow * p) p)
              (zeros B C oh ow) eq_refl (zeros_wf _ _ _ _)
              (corners_in_range p Hp oh ow))
    as (out & Hrun & Hso & Hwfo).
  exists out. split; [done|]. split; [done|]. split; [done|].
  intros b c oi oj Hi Hj.
  assert (Hk : (oi * p, oj * p) ∈ corners (oh * p) (ow * p) p).
  { apply corners_elem. rewrite !(py_range_elem p Hp).
    split; [exists oi|exists oj]; split; try done; nia. }
  apply list_elem_of_split_r in Hk as (l1 & l2 & Hsplit & Hnotin).
  rewrite Hsplit in Hrun.
  pose proof (writes_touched B C oh ow p V HV l1 (oi * p, oj * p) l2
                (zeros B C oh ow) out b c eq_refl (zeros_wf _ _ _ _) Hrun)
    as Hcell.
  simpl in Hcell. rewrite !Nat.div_mul in Hcell by lia.
  rewrite Hcell.
  - unfold V, plane. simpl. apply emap_lookup.
  - apply Forall_forall. intros k' Hk' Heq.
    assert (Hin : k' ∈ corners (oh * p) (ow * p) p).
    { rewrite Hsplit. apply elem_of_app. right. by right. }
    apply (corners_multiples p Hp) in Hin as (a & b' & -> & _ & _).
    simpl in Heq. rewrite !Nat.div_mul in Heq by lia.
    injection Heq as -> ->. done.
Qed.

End Forward.

(** ** The forward pass of the layer with RegP *)

Section ForwardRegP.
Import FuzzyPoolingLayerRegP.
Variables (p : nat) (reg_lambda : R).

Lemma body_regp x i j out t :
  body p reg_lambda x i j (out, t)
  = rbind (FuzzyPoolingLayer.body p x i j out)
      (fun out' =>
         Ok (out', total_add t (window_penalty reg_lambda p x (i, j)))).
Proof. reflexivity. Qed.

(** The loops of the two layers write the same output; the RegP layer
    also folds the penalties into [regp_total]. *)
Lemma loop_regp x ks out t :
  for_each ks (out, t) (fun k st => body p reg_lambda x k.1 k.2 st)
  = rbind (for_each ks out
             (fun k out => FuzzyPoolingLayer.body p x k.1 k.2 out))
      (fun out' =>
         Ok (out', foldl total_add t (window_penalty reg_lambda p x <$> ks))).
Proof.
  revert out t. induction ks as [|[i j] ks IH]; intros out t; [done|].
  cbn [for_each fst snd]. rewrite body_regp.
  destruct (FuzzyPoolingLayer.body p x i j out) as [out'|e]; [|done].
  cbn [rbind]. etransitivity; [apply IH|done].
Qed.

Lemma forward_regp_plain x B C H W :
  tsize x = (B, C, H, W) ->
  forward p reg_lambda x
  = rbind (FuzzyPoolingLayer.forward p x)
      (fun out =>
         rbind (total_div (regp_total_after reg_lambda p x (corners H W p))
                  (B * C))
           (fun regp_loss => Ok (out, regp_loss))).
Proof.
  intros Hs. unfold forward, FuzzyPoolingLayer.forward. rewrite Hs.
  destruct (p =? 0); [done|].
  rewrite !for_each_nested. fold (corners H W p).
  rewrite loop_regp.
  destruct (for_each _ _ _) as [out|e]; done.
Qed.

Lemma total_add_scalar t v : exists u, total_add t v = Scalar u.
Proof. destruct t; simpl; eauto. Qed.

Lemma regp_total_scalar x ks :
  ks <> [] -> exists u, regp_total_after reg_lambda p x ks = Scalar u.
Proof.
  unfold regp_total_after. intros Hks.
  destruct ks as [|k ks _] using rev_ind; [done|].
  rewrite fmap_app, foldl_app. simpl. apply total_add_scalar.
Qed.

Lemma corners_nonempty H W : 0 < p -> 0 < H -> 0 < W -> corners H W p <> [].
Proof.
  intros Hp HH HW Hnil.
  assert (Hin : (0 * p, 0 * p) ∈ corners H W p).
  { apply corners_elem. rewrite !(py_range_elem p Hp).
    split; exists 0; (split; [done|lia]). }
  rewrite Hnil in Hin. by apply elem_of_nil in Hin.
Qed.

(** The final division raises only between the integers 0 and 0. *)
Lemma total_div_ok x H W n :
  0 < n \/ (0 < p /\ 0 < H /\ 0 < W) ->
  exists regp_loss,
    total_div (regp_total_after reg_lambda p x (corners H W p)) n
    = Ok regp_loss.
Proof.
  intros Hnd.
  destruct (regp_total_after reg_lambda p x (corners H W p)) as [|u] eqn:E.
  - destruct Hnd as [Hn|(Hp & HH & HW)].
    + simpl. destruct (Nat.eqb_spec n 0); [lia|]. eauto.
    + destruct (regp_total_scalar x (corners H W p)) as [u Hu];
        [by apply corners_nonempty|congruence].
  - simpl. eauto.
Qed.

End ForwardRegP.

(** ** The value of the regularization scalar *)

Section RegPValue.
Local Open Scope R_scope.
Import FuzzyPoolingLayerRegP.

Lemma vsum_num {A} (g : A -> R) (l : list A) :
  vsum ((fun a => Num (g a)) <$> l) = Num (rsum (g <$> l)).
Proof.
  induction l as [|a l IH]; [done|].
  rewrite !fmap_cons, rsum_cons. unfold vsum in *. simpl. rewrite IH. done.
Qed.

Lemma length_concat_rect {A} r k (m : list (list A)) :
  length m = r -> Forall (fun row => length row = k) m ->
  length (concat m) = (r * k)%nat.
Proof.
  intros <- Hrows. induction Hrows as [|row m Hrow _ IH]; [done|].
  rewrite concat_cons, length_app, IH, Hrow. simpl. done.
Qed.

Lemma elem_of_concat {A} (a : A) (m : list (list A)) :
  a ∈ concat m <-> exists row, row ∈ m /\ a ∈ row.
Proof.
  rewrite list_elem_of_In, in_concat.
  split; intros (row & H1 & H2); exists row;
    by rewrite ?list_elem_of_In in *.
Qed.

Lemma slices_length (x : tensor R) B C H W :
  tsize x = (B, C, H, W) -> tensor_wf x -> length (slices x) = (B * C)%nat.
Proof.
  unfold tensor_wf. intros -> [Hlen Himg]. unfold slices.
  apply length_concat_rect; [done|].
  eapply Forall_impl; [exact Himg|]. by intros img [? _].
Qed.

Lemma slices_wf (x : tensor R) B C H W pl :
  tsize x = (B, C, H, W) -> tensor_wf x -> pl ∈ slices x -> plane_wf H W pl.
Proof.
  unfold tensor_wf. intros -> [Hlen Himg] Hpl.
  apply elem_of_concat in Hpl as (img & Himg' & Hpl).
  rewrite Forall_forall in Himg. destruct (Himg img Himg') as [_ Hpls].
  rewrite Forall_forall in Hpls. by apply Hpls.
Qed.

(** The squared memberships of a window of at least two elements. *)
Lemma penalty_slice_some w :
  (2 <= numel w)%nat ->
  penalty_slice (membership w)
  = Num (Reference.sq_sum w (std_real w + eps)).
Proof.
  intros Hn. change membership with FuzzyPoolingLayer.membership.
  rewrite membership_some by done. unfold penalty_slice, gmf_real.
  rewrite emap_emap, sum2_emap. done.
Qed.

Variables (p : nat) (x : tensor R) (B C oh ow : nat).
Hypothesis Hs : tsize x = (B, C, (oh * p)%nat, (ow * p)%nat).
Hypothesis Hwf : tensor_wf x.
Hypothesis Hp : (2 <= p)%nat.
Hypothesis HBC : (0 < B * C)%nat.

(** sum(membership^2) of the window at corner [k], over the slices. *)
Local Abbreviation sq_at k :=
  (rsum ((fun pl => let w := slice2 k.1 k.2 p pl in
                    Reference.sq_sum w (std_real w + eps)) <$> slices x)).

Lemma window_penalty_num reg_lambda k :
  k ∈ corners (oh * p) (ow * p) p ->
  window_penalty reg_lambda p x k
  = Num (reg_lambda * (sq_at k / INR (B * C))).
Proof.
  intros Hk. apply (corners_multiples p ltac:(lia)) in Hk
    as (a & b & -> & Ha & Hb).
  unfold window_penalty, regularization_penalty, mean_all, slice4. simpl.
  rewrite !emap_emap, concat_emap. fold (slices x).
  rewrite length_fmap, (slices_length x B C _ _ Hs Hwf).
  rewrite (list_fmap_ext _
    (fun pl => Num (let w := slice2 (a * p) (b * p) p pl in
                    Reference.sq_sum w (std_real w + eps))) (slices x)).
  - rewrite vsum_num. simpl.
    destruct (Nat.eqb_spec (B * C) 0); [lia|]. done.
  - intros i pl Hpl. apply penalty_slice_some.
    apply list_elem_of_lookup_2 in Hpl.
    pose proof (slices_wf x _ _ _ _ pl Hs Hwf Hpl) as Hplwf.
    rewrite (numel_rect p p); [nia|].
    apply Nat.mul_lt_mono_pos_r in Ha, Hb; [|lia..].
    apply (slice2_wf p ltac:(lia) (oh * p)%nat (ow * p)%nat); [done|..];
      apply Nat.mul_le_mono_r; lia.
Qed.

Lemma total_fold (r : nat * nat -> R) ks t0 :
  foldl total_add (Scalar (Num t0)) ((fun k => Num (r k)) <$> ks)
  = Scalar (Num (t0 + rsum (r <$> ks))).
Proof.
  revert t0. induction ks as [|k ks IH]; intros t0.
  - simpl. rewrite rsum_nil. do 2 f_equal. lra.
  - rewrite !fmap_cons, rsum_cons. simpl. rewrite IH. do 2 f_equal. lra.
Qed.

Lemma regp_loss_value reg_lambda :
  total_div (regp_total_after reg_lambda p x (corners (oh * p) (ow * p) p))
    (B * C)
  = Ok (Num (reg_lambda * sq_total p x / INR (B * C) / INR (B * C))).
Proof.
  assert (Hn : 0 < INR (B * C)) by (apply lt_0_INR; lia).
  unfold regp_total_after, sq_total. rewrite Hs.
  generalize (window_penalty_num reg_lambda).
  generalize (corners (oh * p) (ow * p) p). intros ks Hks.
  rewrite (list_fmap_ext _
    (fun k => Num (reg_lambda * (sq_at k / INR (B * C)))) ks).
  2:{ intros i k Hk. apply Hks. by eapply list_elem_of_lookup_2. }
  clear Hks. destruct ks as [|k ks].
  - simpl. destruct (Nat.eqb_spec (B * C) 0); [lia|].
    rewrite rsum_nil. do 2 f_equal. unfold Rdiv. ring.
  - rewrite !fmap_cons. simpl foldl. rewrite total_fold.
    simpl. destruct (Nat.eqb_spec (B * C) 0); [lia|].
    do 2 f_equal. rewrite rsum_cons.
    rewrite (rsum_fmap_ext (fun k => reg_lambda * (sq_at k / INR (B * C)))
               (fun k => (reg_lambda / INR (B * C)) * sq_at k))
      by (intros; unfold Rdiv; ring).
    rewrite rsum_fmap_scale. unfold Rdiv. ring.
Qed.

Lemma sq_total_nonneg : 0 <= sq_total p x.
Proof.
  unfold sq_total. rewrite Hs. apply rsum_fmap_nonneg. intros k _.
  apply rsum_fmap_nonneg. intros pl _. simpl.
  unfold Reference.sq_sum. apply rsum_fmap_nonneg. intros y _.
  apply pow2_ge_0.
Qed.

Lemma sq_total_pos : (0 < oh)%nat -> (0 < ow)%nat -> 0 < sq_total p x.
Proof.
  intros Hoh How. unfold sq_total. rewrite Hs.
  apply rsum_fmap_pos; [apply corners_nonempty; nia|].
  intros k Hk.
  apply (corners_multiples p ltac:(lia)) in Hk as (a & b & -> & Ha & Hb).
  apply Nat.mul_lt_mono_pos_r in Ha, Hb; [|lia..].
  apply rsum_fmap_pos.
  { intros Hnil. pose proof (slices_length x B C _ _ Hs Hwf) as Hlen.
    rewrite Hnil in Hlen. simpl in Hlen. lia. }
  intros pl Hpl. simpl.
  pose proof (slices_wf x _ _ _ _ pl Hs Hwf Hpl) as Hplwf.
  assert (Hn : numel (slice2 (a * p) (b * p) p pl) = (p * p)%nat).
  { apply numel_rect.
    apply (slice2_wf p ltac:(lia) (oh * p)%nat (ow * p)%nat); [done|..];
      apply Nat.mul_le_mono_r; lia. }
  unfold Reference.sq_sum. apply rsum_fmap_pos.
  - intros Hnil. unfold numel in Hn. rewrite Hnil in Hn. simpl in Hn. nia.
  - intros y _. apply pow_lt, exp_pos.
Qed.

(** The result of the RegP layer on sizes that are multiples of
    [pool_size]. *)
Lemma forward_regp_value reg_lambda :
  exists out,
    FuzzyPoolingLayer.forward p x = Ok out /\
    forward p reg_lambda x
    = Ok (out, Num (reg_lambda * sq_total p x / INR (B * C) / INR (B * C))).
Proof.
  destruct (forward_spec p x B C oh ow Hs Hwf ltac:(lia))
    as (out & Hout & _).
  exists out. split; [done|].
  rewrite (forward_regp_plain p reg_lambda x _ _ _ _ Hs), Hout. simpl.
  rewrite regp_loss_value. done.
Qed.
End RegPValue.

(** ** Evaluations on constant inputs *)

Section Examples.
Local Open Scope R_scope.

Lemma flat_window_const c x : x ∈ concat (flat_window c) -> x = c.
Proof.
  unfold flat_window. simpl. rewrite !elem_of_cons, elem_of_nil.
  intros [->|[->|[->|[->|[]]]]]; done.
Qed.

Lemma flat_window_numel c : numel (flat_window c) = 4%nat.
Proof. reflexivity. Qed.

Lemma flat_window_sq_sum c std : Reference.sq_sum (flat_window c) std = 4.
Proof.
  rewrite (const_sq_sum c) by
    (first [apply flat_window_const | rewrite flat_window_numel; lia]).
  rewrite flat_window_numel. simpl. lra.
Qed.

(** The total of squared memberships of a (1, c, 2, 2) map of zeros, for
    one and for two channels. *)
Lemma sq_total_zero_1 : sq_total 2 (full 1 1 2 2 0) = 4.
Proof.
  unfold sq_total. simpl tsize. cbv beta iota.
  change (corners 2 2 2) with [(0, 0)%nat].
  change (slices (full 1 1 2 2 0)) with [flat_window 0].
  rewrite !fmap_cons, !fmap_nil, !rsum_cons, !rsum_nil. simpl fst. simpl snd.
  change (slice2 0 0 2 (flat_window 0)) with (flat_window 0).
  cbv zeta. rewrite flat_window_sq_sum. lra.
Qed.

Lemma sq_total_zero_2 : sq_total 2 (full 1 2 2 2 0) = 8.
Proof.
  unfold sq_total. simpl tsize. cbv beta iota.
  change (corners 2 2 2) with [(0, 0)%nat].
  change (slices (full 1 2 2 2 0)) with [flat_window 0; flat_window 0].
  rewrite !fmap_cons, !fmap_nil, !rsum_cons, !rsum_nil. simpl fst. simpl snd.
  change (slice2 0 0 2 (flat_window 0)) with (flat_window 0).
  cbv zeta. rewrite flat_window_sq_sum. lra.
Qed.

Lemma regp_zero_1 reg_lambda :
  exists out,
    FuzzyPoolingLayerRegP.forward 2 reg_lambda (full 1 1 2 2 0)
    = Ok (out, Num (reg_lambda * 4)).
Proof.
  destruct (forward_regp_value 2 (full 1 1 2 2 0) 1 1 1 1 eq_refl
              (full_wf _ _ _ _ _) ltac:(lia) ltac:(lia) reg_lambda)
    as (out & _ & ->).
  exists out. rewrite sq_total_zero_1. do 3 f_equal. simpl. lra.
Qed.

Lemma regp_zero_2 reg_lambda :
  exists out,
    FuzzyPoolingLayerRegP.forward 2 reg_lambda (full 1 2 2 2 0)
    = Ok (out, Num (reg_lambda * 2)).
Proof.
  destruct (forward_regp_value 2 (full 1 2 2 2 0) 1 2 1 1 eq_refl
              (full_wf _ _ _ _ _) ltac:(lia) ltac:(lia) reg_lambda)
    as (out & _ & ->).
  exists out. rewrite sq_total_zero_2. do 3 f_equal. simpl. lra.
Qed.

Lemma empty_input_plain :
  FuzzyPoolingLayer.forward 2 empty_input = Ok (zeros 0 1 0 0).
Proof. reflexivity. Qed.

Lemma empty_input_regp reg_lambda :
  FuzzyPoolingLayerRegP.forward 2 reg_lambda empty_input
  = Raise ZeroDivisionError.
Proof. reflexivity. Qed.

End Examples.

(** ** The network and the training step *)

Section TrainRegP.
Local Open Scope R_scope.
Context {Params Lbl Out : Type}.
Variable conv1_relu : Params -> tensor R -> tensor R.
Variable view_fc1 : Params -> tensor val -> Out.
Variable criterion : Out -> Lbl -> R.
Variable backward_step : (Params -> result R) -> Params -> Params.

Lemma cnn_forward_value theta images B C oh ow :
  tsize (conv1_relu theta images) = (B, C, (oh * 2)%nat, (ow * 2)%nat) ->
  tensor_wf (conv1_relu theta images) -> (0 < B * C)%nat ->
  exists pooled,
    FuzzyCNNWithRegP.forward conv1_relu view_fc1 theta images
    = Ok (view_fc1 theta pooled,
          Num (1 / 100 * sq_total 2 (conv1_relu theta images)
               / INR (B * C) / INR (B * C))).
Proof.
  intros Hs Hwf HBC.
  destruct (forward_regp_value 2 _ B C oh ow Hs Hwf ltac:(lia) HBC (1 / 100))
    as (pooled & _ & Hf).
  exists pooled. unfold FuzzyCNNWithRegP.forward, FuzzyCNNWithRegP.fuzzy_pool.
  rewrite Hf. done.
Qed.

Lemma regp_scalar_pos (x : tensor R) B C oh ow :
  tsize x = (B, C, (oh * 2)%nat, (ow * 2)%nat) -> tensor_wf x ->
  (0 < B * C)%nat -> (0 < oh)%nat -> (0 < ow)%nat ->
  0 < 1 / 100 * sq_total 2 x / INR (B * C) / INR (B * C).
Proof.
  intros Hs Hwf HBC Hoh How.
  pose proof (sq_total_pos 2 x B C oh ow Hs Hwf ltac:(lia) HBC Hoh How).
  assert (0 < INR (B * C)) by (apply lt_0_INR; lia).
  repeat apply Rdiv_lt_0_compat; lra.
Qed.
End TrainRegP.

(** * The claims *)

Section Claims.
Local Open Scope R_scope.

(** C1 (what the code does).  For a batch of [train] on [FuzzyCNNWithRegP]
    whose convolution output is a well-formed, non-empty map of even height
    and width, the scalar that [train] backpropagates and steps on is
    [criterion(outputs, labels)] alone, and it is what [total_loss]
    accumulates; [get_regp_loss()] of the same forward pass is a strictly
    positive number, so the backpropagated loss is never the cross-entropy
    plus the auxiliary scalar. *)
Theorem train_loss_omits_regp {Params Lbl Out : Type}
    (conv1_relu : Params -> tensor R -> tensor R)
    (view_fc1 : Params -> tensor val -> Out)
    (criterion : Out -> Lbl -> R)
    (backward_step : (Params -> result R) -> Params -> Params)
    (theta : Params) (total_loss : R) (images : tensor R) (labels : Lbl)
    (B C oh ow : nat) :
  tsize (conv1_relu theta images) = (B, C, (oh * 2)%nat, (ow * 2)%nat) ->
  tensor_wf (conv1_relu theta images) ->
  (0 < B * C)%nat -> (0 < oh)%nat -> (0 < ow)%nat ->
  let model := FuzzyCNNWithRegP.call conv1_relu view_fc1 in
  exists outputs regp,
    model theta images = Ok outputs /\
    FuzzyCNNWithRegP.get_regp_loss conv1_relu view_fc1 theta images
    = Ok (Num regp) /\
    0 < regp /\
    train_batch model criterion backward_step (images, labels)
      (theta, total_loss)
    = Ok (backward_step (loss model criterion images labels) theta,
          total_loss + criterion outputs labels) /\
    loss model criterion images labels theta
    = Ok (criterion outputs labels) /\
    loss model criterion images labels theta
    <> Ok (criterion outputs labels + regp).
Proof.
  intros Hs Hwf HBC Hoh How model.
  destruct (cnn_forward_value conv1_relu view_fc1 theta images B C oh ow
              Hs Hwf HBC) as (pooled & Hf).
  pose proof (regp_scalar_pos _ B C oh ow Hs Hwf HBC Hoh How) as Hpos.
  exists (view_fc1 theta pooled). eexists.
  assert (Hcall : model theta images = Ok (view_fc1 theta pooled)).
  { unfold model, FuzzyCNNWithRegP.call. by rewrite Hf. }
  assert (Hloss : loss model criterion images labels theta
                  = Ok (criterion (view_fc1 theta pooled) labels)).
  { unfold loss. by rewrite Hcall. }
  split; [done|]. split.
  { unfold FuzzyCNNWithRegP.get_regp_loss. rewrite Hf. done. }
  split; [done|]. split.
  { unfold train_batch. rewrite Hloss. done. }
  split; [done|].
  rewrite Hloss. intros Heq. injection Heq as Heq. lra.
Qed.

Lemma train_loss_omits_regp_witness :
  let conv1_relu := fun (_ : unit) (_ : tensor R) => full 1 32 28 28 0 in
  let view_fc1 := fun (_ : unit) (_ : tensor val) => tt in
  let criterion := fun (_ _ : unit) => 0 in
  let model := FuzzyCNNWithRegP.call conv1_relu view_fc1 in
  tensor_wf (full 1 32 28 28 0) /\
  exists outputs regp,
    model tt (full 1 32 28 28 0) = Ok outputs /\
    FuzzyCNNWithRegP.get_regp_loss conv1_relu view_fc1 tt
      (full 1 32 28 28 0) = Ok (Num regp) /\
    0 < regp /\
    train_batch model criterion (fun _ t => t) (full 1 32 28 28 0, tt)
      (tt, 0)
    = Ok (tt, 0 + criterion outputs tt) /\
    loss model criterion (full 1 32 28 28 0) tt tt
    = Ok (criterion outputs tt) /\
    loss model criterion (full 1 32 28 28 0) tt tt
    <> Ok (criterion outputs tt + regp).
Proof.
  intros conv1_relu view_fc1 criterion model.
  split; [apply full_wf|].
  apply (train_loss_omits_regp conv1_relu view_fc1 criterion
           (fun _ t => t) tt 0 (full 1 32 28 28 0) tt 1 32 14 14).
  - reflexivity.
  - apply full_wf.
  - lia.
  - lia.
  - lia.
Defined.

(** C2 (what the code does).  On a (1, 2, 2, 2) map of zeros with
    [reg_lambda = 0.01] the total of sum(membership^2) is 8 and the scalar
    left in [regp_loss] is 0.02, the total times [reg_lambda] divided twice
    by B x C = 2; divided once it would be 0.04. *)
Theorem regp_loss_divided_twice :
  sq_total 2 (full 1 2 2 2 0) = 8 /\
  (exists out,
     FuzzyPoolingLayerRegP.forward 2 (1 / 100) (full 1 2 2 2 0)
     = Ok (out, Num (2 / 100))) /\
  1 / 100 * sq_total 2 (full 1 2 2 2 0) / INR (1 * 2) = 4 / 100.
Proof.
  split; [apply sq_total_zero_2|]. split.
  - destruct (regp_zero_2 (1 / 100)) as [out Hout].
    exists out. rewrite Hout. do 3 f_equal. lra.
  - rewrite sq_total_zero_2. simpl. lra.
Qed.

(** C3 (counterexample).  In the window [[1, 1], [1, 5]] the pooled value is
    below the smallest element. *)
Lemma pooled_value_below_window_min :
  exists r,
    FuzzyPoolingLayer.pool outlier_window
      (FuzzyPoolingLayer.membership outlier_window) = Num r /\
    ¬ (window_min outlier_window <= r <= window_max outlier_window).
Proof.
  destruct undershoot as (r & Hr & Hlt).
  exists r. split; [done|]. lra.
Qed.

(** C3 (amended).  For every window of at least two elements the pooled
    value is a number between min(0, min(window)) and
    max(0, max(window)). *)
Theorem pooled_value_within_hull (w : list (list R)) :
  (2 <= numel w)%nat ->
  exists r,
    FuzzyPoolingLayer.pool w (FuzzyPoolingLayer.membership w) = Num r /\
    Rmin 0 (window_min w) <= r <= Rmax 0 (window_max w).
Proof.
  intros Hn. rewrite membership_some by done. unfold gmf_real.
  rewrite pool_sum. eexists. split; [done|].
  set (f := fun x => FuzzyPoolingLayer.gaussian_membership x _ _).
  assert (Hf : forall x, 0 < f x)
    by (intros; apply gaussian_membership_pos).
  assert (HS : 0 <= rsum (f <$> concat w)).
  { apply rsum_fmap_nonneg. intros x _. left. apply Hf. }
  pose proof eps_pos as He.
  set (D := rsum (f <$> concat w) + eps).
  assert (HD : 0 < D) by (unfold D; lra).
  apply (masked_weighted_sum_bounds (concat w)
           (fun x => ge_float (f x) _) (fun x => f x / D)).
  - split; [apply Rmin_l|apply Rmax_l].
  - intros x Hin. split.
    + etransitivity; [apply Rmin_r|by apply window_min_le].
    + etransitivity; [by apply window_max_ge|apply Rmax_r].
  - intros x _. destruct (ge_float_cases (f x) (min_dim (max_dim <$> emap f w)))
      as [[_ ->]|[_ ->]]; auto.
  - intros x _. left. apply Rdiv_lt_0_compat; [apply Hf|done].
  - rewrite (rsum_fmap_ext _ (fun x => / D * f x))
      by (intros; unfold Rdiv; lra).
    rewrite rsum_fmap_scale.
    apply Rmult_le_reg_l with D; [done|].
    rewrite <- Rmult_assoc, Rinv_r, Rmult_1_l, Rmult_1_r by lra.
    unfold D. lra.
Qed.

Lemma pooled_value_within_hull_witness :
  (2 <= numel outlier_window)%nat /\
  exists r,
    FuzzyPoolingLayer.pool outlier_window
      (FuzzyPoolingLayer.membership outlier_window) = Num r /\
    Rmin 0 (window_min outlier_window) <= r
    <= Rmax 0 (window_max outlier_window).
Proof.
  split; [unfold numel; simpl; lia|].
  apply (pooled_value_within_hull outlier_window). unfold numel. simpl. lia.
Defined.

(** C5 (what the code does).  On a non-empty input whose height or width is
    not a multiple of [pool_size], the forward pass does not return: the
    write for the last, partial window of a row or column falls outside
    the output and raises IndexError. *)
Theorem forward_partial_window_raises (p : nat) (x : tensor R)
    (B C H W : nat) :
  tsize x = (B, C, H, W) -> (0 < p)%nat -> (0 < H)%nat -> (0 < W)%nat ->
  (H mod p <> 0 \/ W mod p <> 0)%nat ->
  FuzzyPoolingLayer.forward p x = Raise IndexError.
Proof.
  intros Hs Hp HH HW Hmod.
  rewrite (forward_loop p x B C H W Hs Hp).
  apply (writes_raise B C (H / p) (W / p)); [done|].
  by apply corners_out_of_range.
Qed.

Lemma forward_partial_window_raises_witness :
  tsize odd_input = (1, 1, 3, 2)%nat /\
  (0 < 2)%nat /\ (0 < 3)%nat /\ (0 < 2)%nat /\
  (3 mod 2 <> 0 \/ 2 mod 2 <> 0)%nat /\
  FuzzyPoolingLayer.forward 2 odd_input = Raise IndexError.
Proof.
  assert (Hmod : (3 mod 2 <> 0 \/ 2 mod 2 <> 0)%nat) by (left; simpl; lia).
  split; [reflexivity|]. split; [lia|]. split; [lia|]. split; [lia|].
  split; [exact Hmod|].
  apply (forward_partial_window_raises 2 odd_input 1 1 3 2).
  - reflexivity.
  - lia.
  - lia.
  - lia.
  - exact Hmod.
Defined.

(** C6.  For every well-formed input whose height and width are multiples of
    [pool_size > 0], the forward pass returns, and the output at every
    batch item, channel and window position is the reference computation on
    that window of that slice. *)
Theorem forward_matches_reference (p : nat) (x : tensor R) (B C H W : nat) :
  tsize x = (B, C, H, W) -> tensor_wf x -> (0 < p)%nat ->
  (H mod p = 0)%nat -> (W mod p = 0)%nat ->
  exists out,
    FuzzyPoolingLayer.forward p x = Ok out /\
    forall b c oi oj pl,
      plane x b c = Some pl -> (oi < H / p)%nat -> (oj < W / p)%nat ->
      cell out b c oi oj
      = Some (Reference.pooled (slice2 (oi * p) (oj * p) p pl)).
Proof.
  intros Hs Hwf Hp HH HW.
  assert (EH : H = (H / p * p)%nat).
  { pose proof (Nat.div_mod_eq H p). lia. }
  assert (EW : W = (W / p * p)%nat).
  { pose proof (Nat.div_mod_eq W p). lia. }
  rewrite EH, EW in Hs.
  destruct (forward_spec p x B C _ _ Hs Hwf Hp) as (out & Hrun & _ & _ & Hc).
  exists out. split; [done|].
  intros b c oi oj pl Hpl Hi Hj.
  rewrite (Hc b c oi oj Hi Hj), Hpl. simpl. f_equal.
  apply pool_reference.
Qed.

Lemma forward_matches_reference_witness :
  tensor_wf (full 1 1 2 2 0) /\
  exists out,
    FuzzyPoolingLayer.forward 2 (full 1 1 2 2 0) = Ok out /\
    forall b c oi oj pl,
      plane (full 1 1 2 2 0) b c = Some pl ->
      (oi < 2 / 2)%nat -> (oj < 2 / 2)%nat ->
      cell out b c oi oj
      = Some (Reference.pooled (slice2 (oi * 2) (oj * 2) 2 pl)).
Proof.
  split; [apply full_wf|].
  apply (forward_matches_reference 2 (full 1 1 2 2 0) 1 1 2 2).
  - reflexivity.
  - apply full_wf.
  - lia.
  - reflexivity.
  - reflexivity.
Defined.

(** C7.  For every well-formed input of size (B, C, H, W) with H and W
    multiples of [pool_size > 0], the forward pass returns a well-formed
    tensor of size (B, C, H / pool_size, W / pool_size). *)
Theorem forward_output_shape (p : nat) (x : tensor R) (B C H W : nat) :
  tsize x = (B, C, H, W) -> tensor_wf x -> (0 < p)%nat ->
  (H mod p = 0)%nat -> (W mod p = 0)%nat ->
  exists out,
    FuzzyPoolingLayer.forward p x = Ok out /\
    tsize out = (B, C, H / p, W / p)%nat /\
    tensor_wf out.
Proof.
  intros Hs Hwf Hp HH HW.
  assert (EH : H = (H / p * p)%nat).
  { pose proof (Nat.div_mod_eq H p). lia. }
  assert (EW : W = (W / p * p)%nat).
  { pose proof (Nat.div_mod_eq W p). lia. }
  rewrite EH, EW in Hs.
  destruct (forward_spec p x B C _ _ Hs Hwf Hp)
    as (out & Hrun & Hso & Hwfo & _).
  by exists out.
Qed.

Lemma forward_output_shape_witness :
  tensor_wf (full 3 32 28 28 0) /\
  exists out,
    FuzzyPoolingLayer.forward 2 (full 3 32 28 28 0) = Ok out /\
    tsize out = (3, 32, 28 / 2, 28 / 2)%nat /\
    tensor_wf out.
Proof.
  split; [apply full_wf|].
  apply (forward_output_shape 2 (full 3 32 28 28 0) 3 32 28 28).
  - reflexivity.
  - apply full_wf.
  - lia.
  - reflexivity.
  - reflexivity.
Defined.

(** C8 (counterexample).  On a (1, 1, 2, 2) map of zeros the scalar is 0
    under [reg_lambda = 0] and -4 under [reg_lambda = -1], although
    |0| <= |-1|. *)
Lemma regp_not_monotone_in_magnitude :
  exists out1 out2 s1 s2,
    FuzzyPoolingLayerRegP.forward 2 0 (full 1 1 2 2 0) = Ok (out1, Num s1) /\
    FuzzyPoolingLayerRegP.forward 2 (-1) (full 1 1 2 2 0)
    = Ok (out2, Num s2) /\
    Rabs 0 <= Rabs (-1) /\
    ¬ (s1 <= s2).
Proof.
  destruct (regp_zero_1 0) as [out1 H1].
  destruct (regp_zero_1 (-1)) as [out2 H2].
  exists out1, out2, (0 * 4), (-1 * 4).
  split; [done|]. split; [done|]. split.
  - rewrite Rabs_R0. apply Rabs_pos.
  - lra.
Qed.

(** C8 (amended).  For every well-formed input with at least one batch item
    and channel, H and W multiples of [pool_size >= 2], the scalar under a
    [reg_lambda >= 0] is a number >= 0, and for 0 <= l1 <= l2 the scalar
    under l1 is at most the scalar under l2. *)
Theorem regp_nonneg_monotone (p : nat) (x : tensor R) (B C H W : nat)
    (l1 l2 : R) :
  tsize x = (B, C, H, W) -> tensor_wf x -> (2 <= p)%nat ->
  (H mod p = 0)%nat -> (W mod p = 0)%nat -> (0 < B * C)%nat ->
  0 <= l1 <= l2 ->
  exists out s1 s2,
    FuzzyPoolingLayerRegP.forward p l1 x = Ok (out, Num s1) /\
    FuzzyPoolingLayerRegP.forward p l2 x = Ok (out, Num s2) /\
    0 <= s1 /\ s1 <= s2.
Proof.
  intros Hs Hwf Hp HH HW HBC Hl.
  assert (EH : H = (H / p * p)%nat).
  { pose proof (Nat.div_mod_eq H p). lia. }
  assert (EW : W = (W / p * p)%nat).
  { pose proof (Nat.div_mod_eq W p). lia. }
  rewrite EH, EW in Hs.
  destruct (forward_regp_value p x B C _ _ Hs Hwf Hp HBC l1)
    as (out & Hplain & H1).
  destruct (forward_regp_value p x B C _ _ Hs Hwf Hp HBC l2)
    as (out' & Hplain' & H2).
  assert (out' = out) as -> by congruence.
  exists out. do 2 eexists. split; [exact H1|]. split; [exact H2|].
  pose proof (sq_total_nonneg p x B C _ _ Hs) as HT.
  assert (Hn : 0 < INR (B * C)) by (apply lt_0_INR; lia).
  assert (Hq : 0 <= sq_total p x / INR (B * C) / INR (B * C)).
  { assert (0 < / INR (B * C)) by by apply Rinv_0_lt_compat.
    unfold Rdiv. repeat apply Rmult_le_pos; lra. }
  set (q := sq_total p x / INR (B * C) / INR (B * C)) in *.
  replace (l1 * sq_total p x / INR (B * C) / INR (B * C)) with (l1 * q)
    by (unfold q, Rdiv; ring).
  replace (l2 * sq_total p x / INR (B * C) / INR (B * C)) with (l2 * q)
    by (unfold q, Rdiv; ring).
  split; nra.
Qed.

Lemma regp_nonneg_monotone_witness :
  tensor_wf (full 1 1 2 2 0) /\
  0 <= 1 / 100 <= 1 /\
  exists out s1 s2,
    FuzzyPoolingLayerRegP.forward 2 (1 / 100) (full 1 1 2 2 0)
    = Ok (out, Num s1) /\
    FuzzyPoolingLayerRegP.forward 2 1 (full 1 1 2 2 0) = Ok (out, Num s2) /\
    0 <= s1 /\ s1 <= s2.
Proof.
  assert (Hl : 0 <= 1 / 100 <= 1) by lra.
  split; [apply full_wf|]. split; [exact Hl|].
  apply (regp_nonneg_monotone 2 (full 1 1 2 2 0) 1 1 2 2 (1 / 100) 1).
  - reflexivity.
  - apply full_wf.
  - lia.
  - reflexivity.
  - reflexivity.
  - lia.
  - exact Hl.
Defined.

(** C9 (counterexample).  For a window of one element [torch.std] is NaN:
    the membership denominator is not a positive number, and the pooled
    value is NaN. *)
Lemma single_element_std_nan :
  std2 single_window = NaN /\
  FuzzyPoolingLayer.pool single_window
    (FuzzyPoolingLayer.membership single_window) = NaN /\
  ¬ (exists std,
       vadd (std2 single_window) (Num eps) = Num std /\ 0 < 2 * std ^ 2).
Proof.
  split; [reflexivity|]. split; [reflexivity|].
  intros (std & Hstd & _). discriminate Hstd.
Qed.

(** C9 (amended).  For every window of at least two elements, also one
    whose elements are all equal, [std] and the membership map are numbers
    and both denominators, 2 std^2 and the sum of the memberships plus
    1e-8, are strictly positive. *)
Theorem denominators_positive (w : list (list R)) :
  (2 <= numel w)%nat ->
  exists std gmf,
    vadd (std2 w) (Num eps) = Num std /\
    FuzzyPoolingLayer.membership w = Some gmf /\
    0 < 2 * std ^ 2 /\
    0 < sum2 gmf + eps.
Proof.
  intros Hn. exists (std_real w + eps), (gmf_real w).
  pose proof (std_real_nonneg w). pose proof eps_pos.
  pose proof (gmf_sum_nonneg w).
  split; [by rewrite std2_some|].
  split; [by apply membership_some|].
  split; [|lra].
  assert (0 < std_real w + eps) by lra. nra.
Qed.

Lemma denominators_positive_witness :
  (2 <= numel (flat_window 0))%nat /\
  exists std gmf,
    vadd (std2 (flat_window 0)) (Num eps) = Num std /\
    FuzzyPoolingLayer.membership (flat_window 0) = Some gmf /\
    0 < 2 * std ^ 2 /\
    0 < sum2 gmf + eps.
Proof.
  split; [unfold numel; simpl; lia|].
  apply (denominators_positive (flat_window 0)). unfold numel. simpl. lia.
Defined.

(** C10 (counterexample).  On the empty tensor of size (0, 1, 0, 0) the
    plain layer returns the empty map and the layer with RegP raises
    ZeroDivisionError. *)
Lemma regp_raises_on_empty_input :
  FuzzyPoolingLayer.forward 2 empty_input = Ok (zeros 0 1 0 0) /\
  FuzzyPoolingLayerRegP.forward 2 (1 / 100) empty_input
  = Raise ZeroDivisionError /\
  rmap fst (FuzzyPoolingLayerRegP.forward 2 (1 / 100) empty_input)
  <> FuzzyPoolingLayer.forward 2 empty_input.
Proof.
  split; [apply empty_input_plain|]. split; [apply empty_input_regp|].
  rewrite empty_input_regp, empty_input_plain. discriminate.
Qed.

(** C10 (amended).  For every input with at least one batch item and
    channel, or of positive height and width, the two layers give the same
    result: the same pooled output, or the same exception. *)
Theorem regp_same_pooled_output (p : nat) (reg_lambda : R) (x : tensor R)
    (B C H W : nat) :
  tsize x = (B, C, H, W) ->
  (0 < B * C \/ (0 < H /\ 0 < W))%nat ->
  rmap fst (FuzzyPoolingLayerRegP.forward p reg_lambda x)
  = FuzzyPoolingLayer.forward p x.
Proof.
  intros Hs Hnd. rewrite (forward_regp_plain p reg_lambda x B C H W Hs).
  destruct (FuzzyPoolingLayer.forward p x) as [out|e] eqn:Hplain; [|done].
  simpl.
  destruct (total_div_ok p reg_lambda x H W (B * C)) as [l ->]; [|done].
  destruct Hnd as [?|[? ?]]; [by left|]. right.
  split; [|done].
  destruct (Nat.eq_dec p 0%nat) as [->|]; [|lia].
  unfold FuzzyPoolingLayer.forward in Hplain. rewrite Hs in Hplain. done.
Qed.

Lemma regp_same_pooled_output_witness :
  (0 < 1 * 2 \/ (0 < 2 /\ 0 < 2))%nat /\
  rmap fst (FuzzyPoolingLayerRegP.forward 2 (1 / 100) (full 1 2 2 2 0))
  = FuzzyPoolingLayer.forward 2 (full 1 2 2 2 0).
Proof.
  assert (Hnd : (0 < 1 * 2 \/ (0 < 2 /\ 0 < 2))%nat) by (left; lia).
  split; [exact Hnd|].
  apply (regp_same_pooled_output 2 (1 / 100) (full 1 2 2 2 0) 1 2 2 2).
  - reflexivity.
  - exact Hnd.
Defined.
End Claims.

(** * Further properties of the code *)

(** ** Memberships and dominant elements of a window *)

Section MoreWindow.
Local Open Scope R_scope.
Implicit Types (w : list (list R)).

Lemma gaussian_membership_le_1 x mean std :
  0 < std -> FuzzyPoolingLayer.gaussian_membership x mean std <= 1.
Proof.
  intros Hs. unfold FuzzyPoolingLayer.gaussian_membership.
  rewrite <- exp_0.
  assert (Hinv : 0 < / (2 * std ^ 2)) by (apply Rinv_0_lt_compat; nra).
  assert (Hle : - (x - mean) ^ 2 / (2 * std ^ 2) <= 0).
  { unfold Rdiv. pose proof (pow2_ge_0 (x - mean)). nra. }
  destruct Hle as [Hlt | ->]; [left; by apply exp_increasing|lra].
Qed.

Lemma foldl_Rmax_in (l : list R) x : foldl Rmax x l ∈ x :: l.
Proof.
  revert x. induction l as [|y l IH]; intros x; simpl; [left|].
  specialize (IH (Rmax x y)).
  apply elem_of_cons in IH as [Heq|Hin]; [|right; by right].
  rewrite Heq. unfold Rmax. destruct (Rle_dec x y); [right|]; left.
Qed.

Lemma max_dim_in (l : list R) : l <> [] -> max_dim l ∈ l.
Proof. destruct l as [|x l]; [done|]. intros _. apply foldl_Rmax_in. Qed.







(** X2.  In every window of at least two elements, every non-empty row of
    the membership map holds an element that passes the dominance test: no
    row is masked out entirely. *)
Theorem every_row_has_dominant w :
  (2 <= numel w)%nat ->
  exists gmf,
    FuzzyPoolingLayer.membership w = Some gmf /\
    forall row, row ∈ gmf -> row <> [] ->
      exists g, g ∈ row /\ ge_float g (min_dim (max_dim <$> gmf)) = 1.
Proof.
  intros Hn. exists (gmf_real w). split; [by apply membership_some|].
  intros row Hrow Hnil. exists (max_dim row).
  split; [by apply max_dim_in|].
  apply ge_float_true, min_dim_le, list_elem_of_fmap. by exists row.
Qed.

Lemma every_row_has_dominant_witness :
  (2 <= numel outlier_window)%nat /\
  exists gmf,
    FuzzyPoolingLayer.membership outlier_window = Some gmf /\
    forall row, row ∈ gmf -> row <> [] ->
      exists g, g ∈ row /\ ge_float g (min_dim (max_dim <$> gmf)) = 1.
Proof.
  split; [unfold numel; simpl; lia|].
  apply (every_row_has_dominant outlier_window).
  unfold numel. simpl. lia.
Defined.


End MoreWindow.

(** ** Edge cases of the two fuzzy layers *)

Section MoreForward.
Local Open Scope R_scope.

Lemma plane_some {A} (x : tensor A) B C H W b c :
  tsize x = (B, C, H, W) -> tensor_wf x -> (b < B)%nat -> (c < C)%nat ->
  exists pl, plane x b c = Some pl /\ plane_wf H W pl /\ pl ∈ slices x.
Proof.
  unfold tensor_wf. intros -> [Hlen Himg] Hb Hc. unfold plane.
  destruct (lookup_lt_is_Some_2 (tdata x) b) as [img Eimg]; [lia|].
  destruct (Forall_lookup_1 _ _ _ _ Himg Eimg) as [HC Hpl].
  destruct (lookup_lt_is_Some_2 img c) as [pl Epl]; [lia|].
  exists pl. rewrite Eimg. simpl. split; [done|]. split.
  - by apply (Forall_lookup_1 _ _ _ _ Hpl Epl).
  - apply elem_of_concat. exists img.
    split; eapply list_elem_of_lookup_2; eassumption.
Qed.

Lemma py_range_zero p : (0 < p)%nat -> py_range 0 p = [].
Proof.
  intros Hp. unfold py_range.
  replace ((0 + p - 1) / p)%nat with 0%nat; [done|].
  symmetry. apply Nat.div_small. lia.
Qed.

Lemma corners_empty H W p :
  (0 < p)%nat -> (H = 0 \/ W = 0)%nat -> corners H W p = [].
Proof.
  intros Hp [-> | ->]; unfold corners; rewrite py_range_zero by done.
  - done.
  - induction (py_range H p) as [|i l IH]; [done|].
    rewrite bind_cons, IH. done.
Qed.

(** X3.  With [pool_size = 1] the forward pass returns a tensor of the size
    of its input in which every element is NaN. *)
Theorem pool_size_one_all_nan (x : tensor R) (B C H W : nat) :
  tsize x = (B, C, H, W) -> tensor_wf x ->
  exists out,
    FuzzyPoolingLayer.forward 1 x = Ok out /\
    tsize out = (B, C, H, W) /\
    forall b c i j, (b < B)%nat -> (c < C)%nat -> (i < H)%nat -> (j < W)%nat ->
      cell out b c i j = Some NaN.
Proof.
  intros Hs Hwf.
  assert (Hs1 : tsize x = (B, C, (H * 1)%nat, (W * 1)%nat))
    by (by rewrite !Nat.mul_1_r).
  destruct (forward_spec 1 x B C H W Hs1 Hwf ltac:(lia))
    as (out & Hrun & Hso & _ & Hc).
  exists out. split; [done|]. split; [done|].
  intros b c i j Hb Hc' Hi Hj.
  destruct (plane_some x B C H W b c Hs Hwf Hb Hc') as (pl & Hpl & Hplwf & _).
  rewrite (Hc b c i j Hi Hj), Hpl. simpl. f_equal.
  unfold pool_slice. cbv zeta.
  rewrite membership_none; [done|].
  rewrite (numel_rect 1 1); [lia|].
  apply (slice2_wf 1 ltac:(lia) H W); [done|lia..].
Qed.

Lemma pool_size_one_all_nan_witness :
  tensor_wf (full 1 1 2 2 0) /\
  exists out,
    FuzzyPoolingLayer.forward 1 (full 1 1 2 2 0) = Ok out /\
    tsize out = (1, 1, 2, 2)%nat /\
    forall b c i j, (b < 1)%nat -> (c < 1)%nat -> (i < 2)%nat -> (j < 2)%nat ->
      cell out b c i j = Some NaN.
Proof.
  split; [apply full_wf|].
  apply (pool_size_one_all_nan (full 1 1 2 2 0) 1 1 2 2).
  - reflexivity.
  - apply full_wf.
Defined.

(** X4.  On an input of height 0 or width 0 no window is visited: the plain
    layer returns the map of zeros of the floor size, whatever the other
    dimension is, and the layer with RegP returns it with the scalar 0 when
    the input has a batch item and a channel. *)
Theorem no_window_returns_zeros (p : nat) (reg_lambda : R) (x : tensor R)
    (B C H W : nat) :
  tsize x = (B, C, H, W) -> (0 < p)%nat -> (H = 0 \/ W = 0)%nat ->
  FuzzyPoolingLayer.forward p x = Ok (zeros B C (H / p) (W / p)) /\
  ((0 < B * C)%nat ->
   FuzzyPoolingLayerRegP.forward p reg_lambda x
   = Ok (zeros B C (H / p) (W / p), Num 0)).
Proof.
  intros Hs Hp H0.
  assert (Hplain : FuzzyPoolingLayer.forward p x
                   = Ok (zeros B C (H / p) (W / p))).
  { rewrite (forward_loop p x B C H W Hs Hp), corners_empty by done. done. }
  split; [done|]. intros HBC.
  rewrite (forward_regp_plain p reg_lambda x B C H W Hs), Hplain.
  unfold regp_total_after. rewrite corners_empty by done. simpl.
  destruct (Nat.eqb_spec (B * C) 0); [lia|]. simpl.
  do 3 f_equal. unfold Rdiv. ring.
Qed.

Lemma no_window_returns_zeros_witness :
  (0 < 2)%nat /\ (0 = 0 \/ 3 = 0)%nat /\
  FuzzyPoolingLayer.forward 2 (full 1 1 0 3 0)
  = Ok (zeros 1 1 (0 / 2) (3 / 2)) /\
  ((0 < 1 * 1)%nat ->
   FuzzyPoolingLayerRegP.forward 2 (1 / 100) (full 1 1 0 3 0)
   = Ok (zeros 1 1 (0 / 2) (3 / 2), Num 0)).
Proof.
  assert (H0 : (0 = 0 \/ 3 = 0)%nat) by (left; reflexivity).
  split; [lia|]. split; [exact H0|].
  apply (no_window_returns_zeros 2 (1 / 100) (full 1 1 0 3 0) 1 1 0 3).
  - reflexivity.
  - lia.
  - exact H0.
Defined.

(** X5.  The layer with RegP fails like the plain one: on a non-empty input
    whose height or width is not a multiple of [pool_size] the call raises
    IndexError, so it returns no output and leaves no [regp_loss]. *)
Theorem regp_partial_window_raises (p : nat) (reg_lambda : R) (x : tensor R)
    (B C H W : nat) :
  tsize x = (B, C, H, W) -> (0 < p)%nat -> (0 < H)%nat -> (0 < W)%nat ->
  (H mod p <> 0 \/ W mod p <> 0)%nat ->
  FuzzyPoolingLayerRegP.forward p reg_lambda x = Raise IndexError.
Proof.
  intros Hs Hp HH HW Hmod.
  rewrite (forward_regp_plain p reg_lambda x B C H W Hs).
  rewrite (forward_loop p x B C H W Hs Hp).
  rewrite (writes_raise B C (H / p) (W / p)); [done|done|].
  by apply corners_out_of_range.
Qed.

Lemma regp_partial_window_raises_witness :
  (0 < 2)%nat /\ (0 < 3)%nat /\ (0 < 2)%nat /\
  (3 mod 2 <> 0 \/ 2 mod 2 <> 0)%nat /\
  FuzzyPoolingLayerRegP.forward 2 (1 / 100) odd_input = Raise IndexError.
Proof.
  assert (Hmod : (3 mod 2 <> 0 \/ 2 mod 2 <> 0)%nat) by (left; simpl; lia).
  split; [lia|]. split; [lia|]. split; [lia|]. split; [exact Hmod|].
  apply (regp_partial_window_raises 2 (1 / 100) odd_input 1 1 3 2).
  - reflexivity.
  - lia.
  - lia.
  - lia.
  - exact Hmod.
Defined.
End MoreForward.

(** ** An upper bound on the regularization scalar *)

Section RegPBound.
Local Open Scope R_scope.

Lemma rsum_fmap_le_const {A} (f : A -> R) (k : list A) M :
  (forall a, a ∈ k -> f a <= M) -> rsum (f <$> k) <= INR (length k) * M.
Proof.
  intros H. rewrite <- rsum_fmap_const. by apply rsum_fmap_le.
Qed.

Lemma py_range_length n p : (0 < p)%nat -> length (py_range (n * p) p) = n.
Proof.
  intros Hp. unfold py_range. rewrite length_fmap, length_seq.
  replace (n * p + p - 1)%nat with (n * p + (p - 1))%nat by lia.
  rewrite Nat.div_add_l, Nat.div_small by lia. lia.
Qed.

Lemma length_bind_const {A B} (f : A -> list B) (l : list A) k :
  (forall a, length (f a) = k) -> length (l ≫= f) = (length l * k)%nat.
Proof.
  intros Hf. induction l as [|a l IH]; [done|].
  rewrite bind_cons, length_app, IH, Hf. simpl. lia.
Qed.

Lemma corners_length oh ow p :
  (0 < p)%nat -> length (corners (oh * p) (ow * p) p) = (oh * ow)%nat.
Proof.
  intros Hp. unfold corners.
  rewrite (length_bind_const _ _ ow), py_range_length by
    (first [done | intros i; rewrite (length_bind_const _ _ 1%nat);
                   [rewrite py_range_length by done; lia | done]]).
  done.
Qed.

Lemma sq_sum_le_numel (w : list (list R)) std :
  0 < std -> Reference.sq_sum w std <= INR (numel w).
Proof.
  intros Hs. unfold Reference.sq_sum, numel.
  rewrite <- (Rmult_1_r (INR _)). apply rsum_fmap_le_const.
  intros x _.
  pose proof (gaussian_membership_pos x (mean2 w) std) as H0.
  pose proof (gaussian_membership_le_1 x (mean2 w) std Hs) as H1.
  change (FuzzyPoolingLayer.gaussian_membership x (mean2 w) std)
    with (Reference.m w std x) in *.
  nra.
Qed.

Lemma sq_total_le (p : nat) (x : tensor R) B C oh ow :
  tsize x = (B, C, (oh * p)%nat, (ow * p)%nat) -> tensor_wf x ->
  (0 < p)%nat ->
  sq_total p x <= INR (oh * ow) * (INR (B * C) * INR (p * p)).
Proof.
  intros Hs Hwf Hp. unfold sq_total. rewrite Hs.
  rewrite <- (corners_length oh ow p Hp). apply rsum_fmap_le_const.
  intros k Hk.
  apply (corners_multiples p Hp) in Hk as (a & b & -> & Ha & Hb).
  apply Nat.mul_lt_mono_pos_r in Ha, Hb; [|lia..].
  rewrite <- (slices_length x B C _ _ Hs Hwf). apply rsum_fmap_le_const.
  intros pl Hpl. simpl.
  pose proof (slices_wf x _ _ _ _ pl Hs Hwf Hpl) as Hplwf.
  rewrite <- (numel_rect p p (slice2 (a * p) (b * p) p pl)).
  - apply sq_sum_le_numel.
    pose proof (std_real_nonneg (slice2 (a * p) (b * p) p pl)).
    pose proof eps_pos. lra.
  - apply (slice2_wf p Hp (oh * p)%nat (ow * p)%nat); [done|..];
      apply Nat.mul_le_mono_r; lia.
Qed.

(** X6.  For a well-formed non-empty input with H and W multiples of
    [pool_size >= 2] and [reg_lambda >= 0], the regularization scalar is at
    most reg_lambda * H * W / (B * C): it shrinks as the batch grows. *)
Theorem regp_upper_bound (p : nat) (reg_lambda : R) (x : tensor R)
    (B C H W : nat) :
  tsize x = (B, C, H, W) -> tensor_wf x -> (2 <= p)%nat ->
  (H mod p = 0)%nat -> (W mod p = 0)%nat -> (0 < B * C)%nat ->
  0 <= reg_lambda ->
  exists out s,
    FuzzyPoolingLayerRegP.forward p reg_lambda x = Ok (out, Num s) /\
    s <= reg_lambda * INR (H * W) / INR (B * C).
Proof.
  intros Hs Hwf Hp HH HW HBC Hl.
  assert (EH : H = (H / p * p)%nat).
  { pose proof (Nat.div_mod_eq H p). lia. }
  assert (EW : W = (W / p * p)%nat).
  { pose proof (Nat.div_mod_eq W p). lia. }
  set (oh := (H / p)%nat) in *. set (ow := (W / p)%nat) in *.
  rewrite EH, EW in Hs.
  destruct (forward_regp_value p x B C oh ow Hs Hwf Hp HBC reg_lambda)
    as (out & _ & Hf).
  exists out. eexists. split; [exact Hf|].
  pose proof (sq_total_le p x B C oh ow Hs Hwf ltac:(lia)) as HT.
  assert (Hn : 0 < INR (B * C)) by (apply lt_0_INR; lia).
  assert (EHW : INR (H * W) = INR (oh * ow) * INR (p * p)).
  { rewrite <- mult_INR. f_equal. rewrite EH, EW. lia. }
  rewrite EHW.
  assert (Hi : 0 < / INR (B * C)) by by apply Rinv_0_lt_compat.
  assert (Hq : sq_total p x * / INR (B * C) <= INR (oh * ow) * INR (p * p)).
  { apply Rmult_le_reg_r with (INR (B * C)); [done|].
    rewrite Rmult_assoc, Rinv_l by lra. lra. }
  unfold Rdiv. rewrite !Rmult_assoc.
  apply Rmult_le_compat_l; [done|].
  rewrite <- !Rmult_assoc. apply Rmult_le_compat_r; lra.
Qed.

Lemma regp_upper_bound_witness :
  tensor_wf (full 4 2 2 2 0) /\ 0 <= 1 / 100 /\
  exists out s,
    FuzzyPoolingLayerRegP.forward 2 (1 / 100) (full 4 2 2 2 0)
    = Ok (out, Num s) /\
    s <= 1 / 100 * INR (2 * 2) / INR (4 * 2).
Proof.
  assert (Hl : 0 <= 1 / 100) by lra.
  split; [apply full_wf|]. split; [exact Hl|].
  apply (regp_upper_bound 2 (1 / 100) (full 4 2 2 2 0) 4 2 2 2).
  - reflexivity.
  - apply full_wf.
  - lia.
  - reflexivity.
  - reflexivity.
  - lia.
  - exact Hl.
Defined.
End RegPBound.

(** ** The max-pooling layer *)

Section MaxPooling.
Local Open Scope R_scope.
Import MaxPoolingLayer.

Lemma for_each_torch_lift {I S} (l : list I) (s : S)
    (body' : I -> S -> result S) :
  for_each_torch l s (fun i s => lift (body' i s))
  = lift (for_each l s body').
Proof.
  revert s. induction l as [|i l IH]; intros s; simpl; [done|].
  destruct (body' i s) as [s'|e]; simpl; [apply IH|done].
Qed.

Lemma for_each_torch_ext {I S} (l : list I) (s : S)
    (f g : I -> S -> torch_result S) :
  (forall i s', f i s' = g i s') -> for_each_torch l s f = for_each_torch l s g.
Proof.
  intros H. revert s. induction l as [|i l IH]; intros s; simpl; [done|].
  rewrite H. destruct (g i s); [apply IH|done..].
Qed.

(** What the layer writes for the window of a slice. *)
Local Abbreviation max_slice p :=
  (fun (i j : nat) (pl : list (list R)) =>
     Num (max_dim (concat (slice2 i j p pl)))).

Lemma max_body_put p B C x i j out :
  (0 < B * C)%nat ->
  body p B C x i j out
  = lift (index_put out (i / p) (j / p) (emap (max_slice p i j) (tdata x))).
Proof.
  intros HBC. unfold body, reshape_flat.
  destruct (Nat.eqb_spec (B * C) 0); [lia|].
  unfold slice4. rewrite !emap_emap. done.
Qed.

Lemma max_forward_loop p x B C H W :
  tsize x = (B, C, H, W) -> (0 < p)%nat -> (0 < B * C)%nat ->
  forward p x
  = lift (for_each (corners H W p) (zeros B C (H / p) (W / p))
            (fun k out =>
               index_put out (k.1 / p) (k.2 / p)
                 (emap (max_slice p k.1 k.2) (tdata x)))).
Proof.
  intros Hs Hp HBC. unfold forward. rewrite Hs.
  destruct (Nat.eqb_spec p 0) as [|_]; [lia|].
  set (put := fun (i j : nat) (out : tensor val) =>
                index_put out (i / p) (j / p)
                  (emap (max_slice p i j) (tdata x))).
  transitivity
    (for_each_torch (py_range H p) (zeros B C (H / p) (W / p))
       (fun i out => lift (for_each (py_range W p) out (put i)))).
  { apply for_each_torch_ext. intros i out.
    rewrite <- for_each_torch_lift.
    apply for_each_torch_ext. intros j out'. by apply max_body_put. }
  rewrite for_each_torch_lift. f_equal.
  apply (for_each_nested (py_range H p) (py_range W p) _ put).
Qed.

(** A loop that writes, for every window and slice, a value computed from
    that window: it returns on sizes that are multiples of [p], and every
    position can be read back. *)
Lemma window_loop_spec (F : nat -> nat -> list (list R) -> val) p
    (x : tensor R) B C oh ow :
  tsize x = (B, C, (oh * p)%nat, (ow * p)%nat) -> tensor_wf x ->
  (0 < p)%nat ->
  exists out,
    for_each (corners (oh * p) (ow * p) p) (zeros B C oh ow)
      (fun k out =>
         index_put out (k.1 / p) (k.2 / p) (emap (F k.1 k.2) (tdata x)))
    = Ok out /\
    tsize out = (B, C, oh, ow) /\ tensor_wf out /\
    forall b c oi oj, (oi < oh)%nat -> (oj < ow)%nat ->
      cell out b c oi oj = F (oi * p)%nat (oj * p)%nat <$> plane x b c.
Proof.
  intros Hs Hwf Hp.
  set (V := fun k : nat * nat => emap (F k.1 k.2) (tdata x)).
  assert (HV : forall k, plane_wf B C (V k)).
  { intros k. by eapply emap_wf. }
  destruct (writes_ok B C oh ow p V HV (corners (oh * p) (ow * p) p)
              (zeros B C oh ow) eq_refl (zeros_wf _ _ _ _)
              (corners_in_range p Hp oh ow))
    as (out & Hrun & Hso & Hwfo).
  exists out. split; [done|]. split; [done|]. split; [done|].
  intros b c oi oj Hi Hj.
  assert (Hk : (oi * p, oj * p)%nat ∈ corners (oh * p) (ow * p) p).
  { apply corners_elem. rewrite !(py_range_elem p Hp).
    split; [exists oi|exists oj]; split; try done; nia. }
  apply list_elem_of_split_r in Hk as (l1 & l2 & Hsplit & Hnotin).
  rewrite Hsplit in Hrun.
  pose proof (writes_touched B C oh ow p V HV l1 (oi * p, oj * p)%nat l2
                (zeros B C oh ow) out b c eq_refl (zeros_wf _ _ _ _) Hrun)
    as Hcell.
  simpl in Hcell. rewrite !Nat.div_mul in Hcell by lia.
  rewrite Hcell.
  - unfold V, plane. simpl. apply emap_lookup.
  - apply Forall_forall. intros k' Hk' Heq.
    assert (Hin : k' ∈ corners (oh * p) (ow * p) p).
    { rewrite Hsplit. apply elem_of_app. right. by right. }
    apply (corners_multiples p Hp) in Hin as (a & b' & -> & _ & _).
    simpl in Heq. rewrite !Nat.div_mul in Heq by lia.
    injection Heq as -> ->. done.
Qed.

Lemma numel_concat_nonempty_pos (w : list (list R)) :
  (0 < numel w)%nat -> concat w <> [].
Proof. unfold numel. intros H Hnil. rewrite Hnil in H. simpl in H. lia. Qed.

Lemma slice2_numel p h w a b (pl : list (list R)) :
  (0 < p)%nat -> plane_wf h w pl ->
  (a < h / p)%nat -> (b < w / p)%nat ->
  numel (slice2 (a * p) (b * p) p pl) = (p * p)%nat.
Proof.
  intros Hp Hpl Ha Hb. apply numel_rect.
  pose proof (Nat.Div0.mul_div_le h p). pose proof (Nat.Div0.mul_div_le w p).
  apply (slice2_wf p Hp h w); [done|nia..].
Qed.

(** X7.  For a well-formed input with a batch item and a channel and with H
    and W multiples of [pool_size > 0], the max-pooling layer returns a
    well-formed tensor of size (B, C, H / pool_size, W / pool_size) whose
    element at every position is the largest element of the window of its
    slice: an element of the window that no element exceeds. *)
Theorem max_forward_spec (p : nat) (x : tensor R) (B C H W : nat) :
  tsize x = (B, C, H, W) -> tensor_wf x -> (0 < p)%nat ->
  (H mod p = 0)%nat -> (W mod p = 0)%nat -> (0 < B * C)%nat ->
  exists out,
    forward p x = Return out /\
    tsize out = (B, C, H / p, W / p)%nat /\ tensor_wf out /\
    forall b c oi oj pl,
      plane x b c = Some pl -> (oi < H / p)%nat -> (oj < W / p)%nat ->
      exists v,
        cell out b c oi oj = Some (Num v) /\
        v ∈ concat (slice2 (oi * p) (oj * p) p pl) /\
        forall y, y ∈ concat (slice2 (oi * p) (oj * p) p pl) -> y <= v.
Proof.
  intros Hs Hwf Hp HH HW HBC.
  rewrite (max_forward_loop p x B C H W Hs Hp HBC).
  assert (EH : H = (H / p * p)%nat).
  { pose proof (Nat.div_mod_eq H p). lia. }
  assert (EW : W = (W / p * p)%nat).
  { pose proof (Nat.div_mod_eq W p). lia. }
  set (oh := (H / p)%nat) in *. set (ow := (W / p)%nat) in *.
  assert (Hs' : tsize x = (B, C, (oh * p)%nat, (ow * p)%nat)) by congruence.
  destruct (window_loop_spec (max_slice p) p x B C oh ow Hs' Hwf Hp)
    as (out & Hrun & Hso & Hwfo & Hc).
  exists out. rewrite EH, EW, Hrun. split; [done|].
  split; [done|]. split; [done|].
  intros b c oi oj pl Hpl Hi Hj.
  exists (max_dim (concat (slice2 (oi * p) (oj * p) p pl))).
  split; [by rewrite (Hc b c oi oj Hi Hj), Hpl|].
  assert (Hb : (b < B)%nat /\ (c < C)%nat).
  { unfold plane in Hpl. destruct (tdata x !! b) as [img|] eqn:Eimg; [|done].
    simpl in Hpl. unfold tensor_wf in Hwf. rewrite Hs in Hwf.
    destruct Hwf as [Hlen Himg].
    destruct (Forall_lookup_1 _ _ _ _ Himg Eimg) as [HC _].
    apply lookup_lt_Some in Eimg, Hpl. lia. }
  destruct (plane_some x B C H W b c Hs Hwf (proj1 Hb) (proj2 Hb))
    as (pl' & Hpl' & Hplwf & _).
  assert (pl' = pl) as -> by congruence.
  split; [|apply max_dim_ge].
  apply max_dim_in, numel_concat_nonempty_pos.
  rewrite (slice2_numel p H W); [nia|done..].
Qed.

Lemma max_forward_spec_witness :
  tensor_wf (full 3 2 4 6 1) /\
  exists out,
    forward 2 (full 3 2 4 6 1) = Return out /\
    tsize out = (3, 2, 4 / 2, 6 / 2)%nat /\ tensor_wf out /\
    forall b c oi oj pl,
      plane (full 3 2 4 6 1) b c = Some pl ->
      (oi < 4 / 2)%nat -> (oj < 6 / 2)%nat ->
      exists v,
        cell out b c oi oj = Some (Num v) /\
        v ∈ concat (slice2 (oi * 2) (oj * 2) 2 pl) /\
        forall y, y ∈ concat (slice2 (oi * 2) (oj * 2) 2 pl) -> y <= v.
Proof.
  split; [apply full_wf|].
  apply (max_forward_spec 2 (full 3 2 4 6 1) 3 2 4 6).
  - reflexivity.
  - apply full_wf.
  - lia.
  - reflexivity.
  - reflexivity.
  - lia.
Defined.

Lemma py_range_head n p :
  (0 < p)%nat -> (0 < n)%nat -> exists l, py_range n p = 0%nat :: l.
Proof.
  intros Hp Hn. unfold py_range.
  destruct ((n + p - 1) / p)%nat as [|m] eqn:E.
  - exfalso. apply Nat.div_small_iff in E; lia.
  - simpl. eauto.
Qed.

(** X8.  On a well-formed input without batch items or without channels, but
    of positive height and width that are multiples of [pool_size], the
    max-pooling layer fails in [reshape] with a RuntimeError, while the
    fuzzy pooling layer returns. *)
Theorem max_empty_batch_fails (p : nat) (x : tensor R) (B C H W : nat) :
  tsize x = (B, C, H, W) -> tensor_wf x -> (0 < p)%nat ->
  (0 < H)%nat -> (0 < W)%nat -> (H mod p = 0)%nat -> (W mod p = 0)%nat ->
  (B * C = 0)%nat ->
  forward p x = RuntimeError /\
  exists out, FuzzyPoolingLayer.forward p x = Ok out.
Proof.
  intros Hs Hwf Hp HH HW HmH HmW HBC. split.
  - unfold forward. rewrite Hs.
    destruct (Nat.eqb_spec p 0) as [|_]; [lia|].
    destruct (py_range_head H p Hp HH) as [lh ->].
    destruct (py_range_head W p Hp HW) as [lw ->].
    cbn [for_each_torch]. unfold body at 1, reshape_flat. rewrite HBC. done.
  - assert (EH : H = (H / p * p)%nat).
    { pose proof (Nat.div_mod_eq H p). lia. }
    assert (EW : W = (W / p * p)%nat).
    { pose proof (Nat.div_mod_eq W p). lia. }
    rewrite EH, EW in Hs.
    destruct (forward_spec p x B C _ _ Hs Hwf Hp) as (out & Hrun & _).
    by exists out.
Qed.

Lemma max_empty_batch_fails_witness :
  tensor_wf (full 0 3 2 2 0) /\
  forward 2 (full 0 3 2 2 0) = RuntimeError /\
  exists out, FuzzyPoolingLayer.forward 2 (full 0 3 2 2 0) = Ok out.
Proof.
  split; [apply full_wf|].
  apply (max_empty_batch_fails 2 (full 0 3 2 2 0) 0 3 2 2).
  - reflexivity.
  - apply full_wf.
  - lia.
  - lia.
  - lia.
  - reflexivity.
  - reflexivity.
  - reflexivity.
Defined.

(** X9.  On an input with a batch item and a channel whose height or width
    is positive but not a multiple of [pool_size], the max-pooling layer
    raises IndexError at the write for the partial window, like the fuzzy
    layers. *)
Theorem max_partial_window_raises (p : nat) (x : tensor R) (B C H W : nat) :
  tsize x = (B, C, H, W) -> (0 < p)%nat -> (0 < B * C)%nat ->
  (0 < H)%nat -> (0 < W)%nat -> (H mod p <> 0 \/ W mod p <> 0)%nat ->
  forward p x = Throw IndexError.
Proof.
  intros Hs Hp HBC HH HW Hmod.
  rewrite (max_forward_loop p x B C H W Hs Hp HBC).
  rewrite (writes_raise B C (H / p) (W / p)); [done|done|].
  by apply corners_out_of_range.
Qed.

Lemma max_partial_window_raises_witness :
  (0 < 2)%nat /\ (0 < 1 * 1)%nat /\ (0 < 3)%nat /\ (0 < 2)%nat /\
  (3 mod 2 <> 0 \/ 2 mod 2 <> 0)%nat /\
  forward 2 odd_input = Throw IndexError.
Proof.
  assert (Hmod : (3 mod 2 <> 0 \/ 2 mod 2 <> 0)%nat) by (left; simpl; lia).
  split; [lia|]. split; [lia|]. split; [lia|]. split; [lia|].
  split; [exact Hmod|].
  apply (max_partial_window_raises 2 odd_input 1 1 3 2).
  - reflexivity.
  - lia.
  - lia.
  - lia.
  - lia.
  - exact Hmod.
Defined.



End MaxPooling.

(** ** The evaluation function *)

Section TestStatistics.
Local Open Scope R_scope.
Context {Params Img Lbl Out : Type}.
Variable model : Params -> Img -> result Out.
Variable criterion : Out -> Lbl -> R.
Variable num_correct : Out -> Lbl -> nat.
Variable size0 : Lbl -> nat.
Variable theta : Params.

(** The model returns on every batch of the loader. *)
Local Abbreviation returns loader :=
  (forall batch, batch ∈ loader -> exists outputs,
     model theta batch.1 = Ok outputs).

(** The loop of [test] keeps [correct <= total], never lowers [total], and
    moves [test_loss] by one batch loss per batch. *)
Lemma test_loop (loader : list (Img * Lbl)) (lo hi : R)
    test_loss correct total :
  returns loader ->
  (forall outputs labels, (num_correct outputs labels <= size0 labels)%nat) ->
  (forall batch outputs, batch ∈ loader -> model theta batch.1 = Ok outputs ->
     lo <= criterion outputs batch.2 <= hi) ->
  exists test_loss' correct' total',
    for_each loader (test_loss, correct, total)
      (test_batch model criterion num_correct size0 theta)
    = Ok (test_loss', correct', total') /\
    (correct' + total <= total' + correct)%nat /\
    (total <= total')%nat /\
    (forall batch, batch ∈ loader -> (total + size0 batch.2 <= total')%nat) /\
    test_loss + INR (length loader) * lo <= test_loss' /\
    test_loss' <= test_loss + INR (length loader) * hi.
Proof.
  intros Hret Hcount Hloss.
  revert test_loss correct total.
  induction loader as [|[images labels] loader IH];
    intros test_loss correct total.
  { exists test_loss, correct, total. simpl.
    split; [done|]. split; [lia|]. split; [lia|].
    split; [intros b Hb; by apply elem_of_nil in Hb|]. lra. }
  destruct (Hret (images, labels)) as [outputs Hout]; [left|].
  simpl in Hout. cbn [for_each]. unfold test_batch at 1. rewrite Hout.
  cbn [rbind].
  destruct (IH (fun b Hb => Hret b ltac:(by right))
              (fun b o Hb => Hloss b o ltac:(by right))
              (test_loss + criterion outputs labels)
              (correct + num_correct outputs labels)%nat
              (total + size0 labels)%nat)
    as (tl & c & t & -> & Hc & Ht & Hb & Hlo & Hhi).
  exists tl, c, t. split; [done|].
  pose proof (Hcount outputs labels).
  pose proof (Hloss (images, labels) outputs ltac:(left) Hout) as Hl.
  simpl in Hl.
  split; [lia|]. split; [lia|]. split.
  - intros b Hin. apply elem_of_cons in Hin as [-> | Hin].
    + simpl. lia.
    + specialize (Hb b Hin). lia.
  - rewrite length_cons, S_INR. lra.
Qed.

(** X11.  If the model returns on every batch, a batch never has more
    correct predictions than labels, the loader is not empty and some batch
    has a label, then [test] returns a pair (avg_loss, accuracy) with
    0 <= accuracy <= 100, and avg_loss lies between any two bounds that hold
    for every batch loss. *)
Theorem test_returns_statistics (loader : list (Img * Lbl)) (lo hi : R) :
  returns loader ->
  (forall outputs labels, (num_correct outputs labels <= size0 labels)%nat) ->
  (forall batch outputs, batch ∈ loader -> model theta batch.1 = Ok outputs ->
     lo <= criterion outputs batch.2 <= hi) ->
  (exists batch, batch ∈ loader /\ (0 < size0 batch.2)%nat) ->
  exists avg_loss accuracy,
    test model criterion num_correct size0 theta loader
    = Ok (avg_loss, accuracy) /\
    0 <= accuracy <= 100 /\
    lo <= avg_loss <= hi.
Proof.
  intros Hret Hcount Hloss (b0 & Hb0 & Hsz).
  destruct (test_loop loader lo hi 0 0%nat 0%nat Hret Hcount Hloss)
    as (tl & c & t & Hrun & Hc & _ & Hb & Hlo & Hhi).
  specialize (Hb b0 Hb0).
  assert (Hlen : (0 < length loader)%nat).
  { destruct loader; [by apply elem_of_nil in Hb0|simpl; lia]. }
  unfold test. rewrite Hrun. cbn [rbind].
  destruct (Nat.eqb_spec (length loader) 0); [lia|].
  destruct (Nat.eqb_spec t 0); [lia|].
  do 2 eexists. split; [done|].
  assert (Ht : 0 < INR t) by (apply lt_0_INR; lia).
  assert (Hn : 0 < INR (length loader)) by (by apply lt_0_INR).
  assert (Hct : INR c <= INR t) by (apply le_INR; lia).
  pose proof (pos_INR c) as Hc0.
  assert (Hit : 0 < / INR t) by by apply Rinv_0_lt_compat.
  assert (Hin : 0 < / INR (length loader)) by by apply Rinv_0_lt_compat.
  split; split.
  - unfold Rdiv. apply Rmult_le_pos; [lra|lra].
  - apply Rmult_le_reg_r with (INR t); [done|].
    unfold Rdiv. rewrite Rmult_assoc, Rinv_l by lra. lra.
  - apply Rmult_le_reg_r with (INR (length loader)); [done|].
    unfold Rdiv. rewrite Rmult_assoc, Rinv_l by lra. lra.
  - apply Rmult_le_reg_r with (INR (length loader)); [done|].
    unfold Rdiv. rewrite Rmult_assoc, Rinv_l by lra. lra.
Qed.

(** X12.  If the model returns on every batch but the loader is empty, or
    no batch has a label, [test] raises ZeroDivisionError in one of its two
    final divisions. *)
Theorem test_division_by_zero (loader : list (Img * Lbl)) :
  returns loader ->
  loader = [] \/ (forall batch, batch ∈ loader -> size0 batch.2 = 0%nat) ->
  test model criterion num_correct size0 theta loader
  = Raise ZeroDivisionError.
Proof.
  intros Hret Hcase.
  assert (Hrun : forall l test_loss correct total,
    (forall batch, batch ∈ l -> exists outputs,
       model theta batch.1 = Ok outputs) ->
    (forall batch, batch ∈ l -> size0 batch.2 = 0%nat) ->
    exists test_loss' correct',
      for_each l (test_loss, correct, total)
        (test_batch model criterion num_correct size0 theta)
      = Ok (test_loss', correct', total)).
  { induction l as [|[images labels] l IH]; intros tl c t Hr Hz.
    { by exists tl, c. }
    destruct (Hr (images, labels)) as [outputs Hout]; [left|].
    simpl in Hout. cbn [for_each]. unfold test_batch at 1. rewrite Hout.
    cbn [rbind]. pose proof (Hz (images, labels) ltac:(left)) as Hz0.
    simpl in Hz0. rewrite Hz0, Nat.add_0_r.
    apply IH; intros b Hb; [apply Hr|apply Hz]; by right. }
  unfold test. destruct Hcase as [-> | Hz]; [done|].
  destruct (Hrun loader 0 0%nat 0%nat Hret Hz) as (tl & c & ->).
  cbn [rbind]. destruct (length loader =? 0)%nat; done.
Qed.
End TestStatistics.

Lemma test_returns_statistics_witness :
  let model := fun (_ _ : unit) => Ok 1%nat in
  let criterion := fun (_ _ : nat) => (1 / 2)%R in
  let num_correct := fun outputs labels : nat => Nat.min outputs labels in
  let size0 := fun labels : nat => labels in
  exists avg_loss accuracy,
    test model criterion num_correct size0 tt [(tt, 2%nat)]
    = Ok (avg_loss, accuracy) /\
    (0 <= accuracy <= 100)%R /\
    (0 <= avg_loss <= 1)%R.
Proof.
  intros model criterion num_correct size0.
  apply (test_returns_statistics model criterion num_correct size0 tt
           [(tt, 2%nat)] 0%R 1%R).
  - intros batch _. by exists 1%nat.
  - intros outputs labels. apply Nat.le_min_r.
  - intros batch outputs _ _. unfold criterion. cbv beta. lra.
  - exists (tt, 2%nat). split; [left|unfold size0; simpl; lia].
Defined.

Lemma test_division_by_zero_witness :
  let model := fun (_ _ : unit) => Ok 1%nat in
  let criterion := fun (_ _ : nat) => (1 / 2)%R in
  let num_correct := fun outputs labels : nat => Nat.min outputs labels in
  let size0 := fun labels : nat => labels in
  test model criterion num_correct size0 tt [(tt, 0%nat)]
  = Raise ZeroDivisionError.
Proof.
  intros model criterion num_correct size0.
  apply (test_division_by_zero model criterion num_correct size0 tt
           [(tt, 0%nat)]).
  - intros batch _. by exists 1%nat.
  - right. intros batch Hb. apply list_elem_of_singleton in Hb as ->. done.
Defined.

(** ** Dominance and the distance to the mean *)

Section NearerMean.
Local Open Scope R_scope.

(** X13.  In a window of at least two elements the membership falls with
    the distance to the window's mean: a value at most as far from the mean
    as another has at least its membership, so it is dominant whenever the
    other is. *)
Theorem nearer_mean_more_dominant (w : list (list R)) (x y : R) :
  (2 <= numel w)%nat ->
  Rabs (y - mean2 w) <= Rabs (x - mean2 w) ->
  let g := fun v =>
    FuzzyPoolingLayer.gaussian_membership v (mean2 w) (std_real w + eps) in
  exists gmf,
    FuzzyPoolingLayer.membership w = Some gmf /\
    gmf = emap g w /\
    g x <= g y /\
    (ge_float (g x) (min_dim (max_dim <$> gmf)) = 1 ->
     ge_float (g y) (min_dim (max_dim <$> gmf)) = 1).
Proof.
  intros Hn Habs g. exists (gmf_real w).
  split; [by apply membership_some|]. split; [done|].
  assert (Hle : g x <= g y).
  { unfold g, FuzzyPoolingLayer.gaussian_membership.
    pose proof (std_real_nonneg w). pose proof eps_pos.
    assert (Hinv : 0 < / (2 * (std_real w + eps) ^ 2)).
    { apply Rinv_0_lt_compat.
      assert (0 < std_real w + eps) by lra. nra. }
    apply Rsqr_le_abs_1 in Habs. rewrite !Rsqr_pow2 in Habs.
    set (a := - (x - mean2 w) ^ 2 / (2 * (std_real w + eps) ^ 2)).
    set (b := - (y - mean2 w) ^ 2 / (2 * (std_real w + eps) ^ 2)).
    assert (Hab : a <= b) by (unfold a, b, Rdiv; nra).
    destruct Hab as [Hlt | ->]; [left; by apply exp_increasing|lra]. }
  split; [done|].
  set (thr := min_dim (max_dim <$> gmf_real w)).
  intros Hx. apply ge_float_true.
  destruct (ge_float_cases (g x) thr) as [[Ht _]|[_ H0]]; [lra|].
  rewrite H0 in Hx. lra.
Qed.

Lemma nearer_mean_more_dominant_witness :
  (2 <= numel outlier_window)%nat /\
  Rabs (1 - mean2 outlier_window) <= Rabs (5 - mean2 outlier_window) /\
  let g := fun v =>
    FuzzyPoolingLayer.gaussian_membership v (mean2 outlier_window)
      (std_real outlier_window + eps) in
  exists gmf,
    FuzzyPoolingLayer.membership outlier_window = Some gmf /\
    gmf = emap g outlier_window /\
    g 5 <= g 1 /\
    (ge_float (g 5) (min_dim (max_dim <$> gmf)) = 1 ->
     ge_float (g 1) (min_dim (max_dim <$> gmf)) = 1).
Proof.
  assert (Hn : (2 <= numel outlier_window)%nat) by (unfold numel; simpl; lia).
  assert (Habs : Rabs (1 - mean2 outlier_window)
                 <= Rabs (5 - mean2 outlier_window)).
  { rewrite outlier_window_mean.
    replace (1 - 2) with (- (1)) by lra. rewrite Rabs_Ropp.
    rewrite !Rabs_right; lra. }
  split; [exact Hn|]. split; [exact Habs|].
  apply (nearer_mean_more_dominant outlier_window 5 1 Hn Habs).
Defined.
End NearerMean.
